(** * HappyClaw: session reset, periodic jobs and message utilities

    A shallow embedding of these TypeScript sources of the repository:
    - the slash-command handler [src/commands.ts]: [clearSessionFiles] and
      [executeSessionReset] (module [Commands]);
    - the daily-summary job, [runDailySummaryIfNeeded] with its throttle
      (module [DailySummary]);
    - the canonical image sniffer [shared/image-detector.ts],
      [detectImageMimeTypeStrict] and its base64 front end (module
      [ImageDetector]);
    - [src/message-attachments.ts]: [normalizeImageMimeType],
      [unwrapBase64Payload], [resolveImageMimeType] and
      [normalizeImageAttachment] (module [MessageAttachments]);
    - [src/intent-analyzer.ts]: [analyzeIntent] (module [IntentAnalyzer]);
    together with a model of the Group Execution Queue (module [GroupQueue]),
    whose implementation, [src/group-queue.ts], is known only through its
    specification.

    The definitions come first, one module per source file; the theorems
    follow in the second half of the file. *)

From Stdlib Require Import ZArith NArith Lia.
From stdpp Require Import base option list strings gmap.

Local Open Scope Z_scope.

(* ===================================================================== *)
(** * JavaScript strings                                                  *)
(* ===================================================================== *)

(** A JavaScript string is a sequence of UTF-16 code units; [length],
    [===], [includes], [startsWith] and [trim] all work on code units.  *)
Module Js.

Definition JsString : Type := list N.

(** An ASCII literal of the source as a code-unit sequence. *)
Definition js (s : string) : JsString :=
  map Ascii.N_of_ascii (String.list_ascii_of_string s).

(** [WhiteSpace] and [LineTerminator] of ECMA-262: what [trim] strips and
    what the regular-expression class [\s] matches. *)
Definition isWhiteSpace (c : N) : bool :=
  (bool_decide (c = 0x09) || bool_decide (c = 0x0A) || bool_decide (c = 0x0B)
   || bool_decide (c = 0x0C) || bool_decide (c = 0x0D) || bool_decide (c = 0x20)
   || bool_decide (c = 0xA0) || bool_decide (c = 0x1680)
   || (N.leb 0x2000 c && N.leb c 0x200A)
   || bool_decide (c = 0x2028) || bool_decide (c = 0x2029)
   || bool_decide (c = 0x202F) || bool_decide (c = 0x205F)
   || bool_decide (c = 0x3000) || bool_decide (c = 0xFEFF))%N.

Fixpoint trimStart (s : JsString) : JsString :=
  match s with
  | c :: s' => if isWhiteSpace c then trimStart s' else s
  | [] => []
  end.

Definition trimEnd (s : JsString) : JsString := rev (trimStart (rev s)).

(** [String.prototype.trim] *)
Definition trim (s : JsString) : JsString := trimEnd (trimStart s).

(** [s.startsWith(p)] *)
Fixpoint startsWith (s p : JsString) : bool :=
  match p, s with
  | [], _ => true
  | c :: p', d :: s' => bool_decide (c = d) && startsWith s' p'
  | _ :: _, [] => false
  end.

(** [s.includes(p)] *)
Fixpoint includes (s p : JsString) : bool :=
  startsWith s p ||
  match s with
  | [] => false
  | _ :: s' => includes s' p
  end.

(** [s.replace(/\s+/g, '')]: every white-space code unit is dropped. *)
Definition stripWhiteSpace (s : JsString) : JsString :=
  filter (fun c => isWhiteSpace c = false) s.

(** Lower-casing restricted to the Basic Latin letters.  It is one admissible
    instance of [String.prototype.toLowerCase] on ASCII text; the
    definitions below are parameterised by the full Unicode operation. *)
Definition asciiToLowerCase (s : JsString) : JsString :=
  map (fun c => if (N.leb 0x41 c && N.leb c 0x5A)%N then (c + 0x20)%N else c) s.

(** The value of a code unit in the base64 alphabet (standard or URL-safe). *)
Definition base64Value (c : N) : option N :=
  (if N.leb 0x41 c && N.leb c 0x5A then Some (c - 0x41)
   else if N.leb 0x61 c && N.leb c 0x7A then Some (c - 0x61 + 26)
   else if N.leb 0x30 c && N.leb c 0x39 then Some (c - 0x30 + 52)
   else if bool_decide (c = 0x2B) || bool_decide (c = 0x2D) then Some 62
   else if bool_decide (c = 0x2F) || bool_decide (c = 0x5F) then Some 63
   else None)%N.

Fixpoint packSextets (vs : list N) : list Z :=
  match vs with
  | a :: b :: c :: d :: rest =>
      let w := (a * 262144 + b * 4096 + c * 64 + d)%N in
      Z.of_N (w / 65536) :: Z.of_N ((w / 256) mod 256) :: Z.of_N (w mod 256)
        :: packSextets rest
  | [a; b; c] =>
      let w := (a * 4096 + b * 64 + c)%N in
      [Z.of_N (w / 1024); Z.of_N ((w / 4) mod 256)]
  | [a; b] => [Z.of_N ((a * 64 + b) / 16)%N]
  | _ => []
  end.

(** A base64 decoder that skips every code unit outside the alphabet.  It is
    one admissible instance of [Buffer.from(s, 'base64')] on well-formed
    input; the definitions below are parameterised by the host's decoder. *)
Definition decodeBase64Ascii (s : JsString) : list Z :=
  packSextets (omap base64Value s).

End Js.

(* ===================================================================== *)
(** * src/intent-analyzer.ts                                              *)
(* ===================================================================== *)

Module IntentAnalyzer.
Import Js.

Inductive MessageIntent : Type := stop | correction | continue.

(** ['停', '算了', '取消', '不用了', 'stop', 'cancel', 'abort'] *)
Definition STOP_KEYWORDS : list JsString :=
  [ [0x505C]; [0x7B97; 0x4E86]; [0x53D6; 0x6D88]; [0x4E0D; 0x7528; 0x4E86];
    js "stop"; js "cancel"; js "abort" ]%N.

(** ['不对', '错了', '等等', '重来', 'wrong', 'redo'] *)
Definition CORRECTION_KEYWORDS : list JsString :=
  [ [0x4E0D; 0x5BF9]; [0x9519; 0x4E86]; [0x7B49; 0x7B49]; [0x91CD; 0x6765];
    js "wrong"; js "redo" ]%N.

Definition MAX_SHORT_MESSAGE_LENGTH : nat := 50.

(** [for (const kw of kws) if (lower === kw) return ...] *)
Definition exactMatch (lower : JsString) (kws : list JsString) : bool :=
  existsb (fun kw => bool_decide (lower = kw)) kws.

(** [for (const kw of kws) if (lower.includes(kw)) return ...] *)
Definition substringMatch (lower : JsString) (kws : list JsString) : bool :=
  existsb (fun kw => includes lower kw) kws.

Section WithLowerCase.
(** [String.prototype.toLowerCase], the Unicode case mapping of the host. *)
Variable toLowerCase : JsString -> JsString.

Definition analyzeIntent (text : JsString) : MessageIntent :=
  let trimmed := trim text in
  if bool_decide (length trimmed = 0%nat)
     || bool_decide (MAX_SHORT_MESSAGE_LENGTH < length trimmed)%nat
  then continue
  else
    let lower := toLowerCase trimmed in
    if exactMatch lower STOP_KEYWORDS then stop
    else if exactMatch lower CORRECTION_KEYWORDS then correction
    else if substringMatch lower STOP_KEYWORDS then stop
    else if substringMatch lower CORRECTION_KEYWORDS then correction
    else continue.

End WithLowerCase.
End IntentAnalyzer.

(* ===================================================================== *)
(** * shared/image-detector.ts                                            *)
(* ===================================================================== *)

Module ImageDetector.
Import Js.

(** A Node [Buffer]: a sequence of bytes, each an integer in [0, 255]. *)
Definition Buffer : Type := list Z.

(** [buffer[i] === v]; an index past the end reads [undefined], which is
    equal to no number. *)
Definition byteIs (buffer : Buffer) (i : nat) (v : Z) : bool :=
  bool_decide (buffer !! i = Some v).

(** [buffer.toString('ascii', start, end)]: Node clears the high bit of every
    byte when it decodes as ['ascii']. *)
Definition toStringAscii (buffer : Buffer) (start stop : nat) : JsString :=
  map (fun b => Z.to_N (Z.land b 0x7f)) (take (stop - start) (drop start buffer)).

Definition detectImageMimeTypeStrict (buffer : Buffer) : option JsString :=
  if bool_decide (length buffer < 12)%nat then None
  else if byteIs buffer 0 0x89 && byteIs buffer 1 0x50 && byteIs buffer 2 0x4e
          && byteIs buffer 3 0x47 && byteIs buffer 4 0x0d && byteIs buffer 5 0x0a
          && byteIs buffer 6 0x1a && byteIs buffer 7 0x0a
  then Some (js "image/png")
  else if byteIs buffer 0 0xff && byteIs buffer 1 0xd8 && byteIs buffer 2 0xff
  then Some (js "image/jpeg")
  else if byteIs buffer 0 0x47 && byteIs buffer 1 0x49 && byteIs buffer 2 0x46
          && byteIs buffer 3 0x38
  then Some (js "image/gif")
  else if byteIs buffer 0 0x52 && byteIs buffer 1 0x49 && byteIs buffer 2 0x46
          && byteIs buffer 3 0x46 && bool_decide (12 <= length buffer)%nat
          && byteIs buffer 8 0x57 && byteIs buffer 9 0x45 && byteIs buffer 10 0x42
          && byteIs buffer 11 0x50
  then Some (js "image/webp")
  else if (byteIs buffer 0 0x49 && byteIs buffer 1 0x49 && byteIs buffer 2 0x2a
           && byteIs buffer 3 0x00)
          || (byteIs buffer 0 0x4d && byteIs buffer 1 0x4d && byteIs buffer 2 0x00
              && byteIs buffer 3 0x2a)
  then Some (js "image/tiff")
  else if bool_decide (12 <= length buffer)%nat
          && bool_decide (toStringAscii buffer 4 8 = js "ftyp")
          && (bool_decide (toStringAscii buffer 8 12 = js "avif")
              || bool_decide (toStringAscii buffer 8 12 = js "avis"))
  then Some (js "image/avif")
  else if byteIs buffer 0 0x42 && byteIs buffer 1 0x4d
  then Some (js "image/bmp")
  else None.

(** [detectImageMimeTypeStrict(buffer) || 'image/jpeg'] *)
Definition detectImageMimeType (buffer : Buffer) : JsString :=
  match detectImageMimeTypeStrict buffer with
  | Some ((_ :: _) as m) => m
  | _ => js "image/jpeg"
  end.

Section WithBase64.
(** [Buffer.from(s, 'base64')], Node's lenient base64 decoder. *)
Variable decodeBase64 : JsString -> Buffer.

(** [Buffer.from] does not throw on a string argument, so the [catch] arm of
    the source is never taken. *)
Definition detectImageMimeTypeFromBase64Strict (base64Data : JsString)
  : option JsString :=
  let header := decodeBase64 (take 400 base64Data) in
  detectImageMimeTypeStrict header.

End WithBase64.

Definition KNOWN_MIME_TYPES : list JsString :=
  map js ["image/png"; "image/jpeg"; "image/gif"; "image/webp"; "image/tiff";
          "image/avif"; "image/bmp"]%string.

End ImageDetector.


(* ===================================================================== *)
(** * src/message-attachments.ts                                          *)
(* ===================================================================== *)

Module MessageAttachments.
Import Js ImageDetector.

(** A value of TypeScript type [unknown], as far as this file inspects it:
    [typeof v === 'string'], [v ?? d] and [v !== 'image']. *)
Inductive JsValue : Type :=
| VUndefined
| VNull
| VString (s : JsString)
| VOther.   (* a number, boolean, object, ... *)

Record ImageAttachmentInput : Type := {
  in_type : JsValue;
  in_data : JsValue;
  in_mimeType : JsValue;
}.

(** The [type] field is the constant ['image'] and is left out. *)
Record NormalizedImageAttachment : Type := {
  data : JsString;
  mimeType : JsString;
}.

Record MimeMismatch : Type := {
  declaredMime : JsString;
  detectedMime : JsString;
}.

(** Truthiness of a [string | undefined | null]. *)
Definition truthy (o : option JsString) : bool :=
  match o with
  | Some (_ :: _) => true
  | _ => false
  end.

(** The string held by a truthy value. *)
Definition text (o : option JsString) : JsString := default [] o.

(** [a || b] *)
Definition jsOr (a b : option JsString) : option JsString :=
  if truthy a then a else b.

(** Case-insensitive match of a lower-case ASCII literal at the start of a
    string, as the regular-expression flag [i] does it (a code unit outside
    ASCII never matches an ASCII letter). *)
Definition startsWithIgnoreCase (s lit : JsString) : bool :=
  startsWith (asciiToLowerCase (take (length lit) s)) lit.

Definition notSeparator (c : N) : bool :=
  negb (bool_decide (c = 0x3B)%N || bool_decide (c = 0x2C)%N).

(** The longest prefix whose code units satisfy [p], and the rest. *)
Fixpoint span (p : N -> bool) (s : JsString) : JsString * JsString :=
  match s with
  | c :: s' => if p c then let '(a, b) := span p s' in (c :: a, b) else ([], s)
  | [] => ([], [])
  end.

(** [DATA_URL_BASE64_RE.exec(raw)]: the two captured groups.  The pattern,
    under the flags [i] and [s], is: start of input, optional white space,
    the literal [data:], a non-empty run of code units other than [;] and
    [,] (group 1), the literal [;base64,], then any code units (group 2),
    optional white space, end of input.  Group 2 is greedy and, with flag
    [s], takes everything up to the end of input. *)
Definition execDataUrl (raw : JsString) : option (JsString * JsString) :=
  let s1 := trimStart raw in
  if startsWithIgnoreCase s1 (js "data:") then
    let '(g1, s2) := span notSeparator (drop 5 s1) in
    match g1 with
    | [] => None
    | _ :: _ =>
        if startsWithIgnoreCase s2 (js ";base64,") then Some (g1, drop 8 s2)
        else None
    end
  else None.

Section WithHost.
(** [String.prototype.toLowerCase] and [Buffer.from(s, 'base64')]. *)
Variable toLowerCase : JsString -> JsString.
Variable decodeBase64 : JsString -> Buffer.

Definition normalizeImageMimeType (raw : JsValue) : option JsString :=
  match raw with
  | VString s =>
      let lowered := toLowerCase (trim s) in
      if startsWith lowered (js "image/") then Some lowered else None
  | _ => None
  end.

(** Returns [(base64, hintedMime)]. *)
Definition unwrapBase64Payload (raw : JsString) : JsString * option JsString :=
  match execDataUrl raw with
  | None => (stripWhiteSpace raw, None)
  | Some (g1, g2) => (stripWhiteSpace g2, normalizeImageMimeType (VString g1))
  end.

Section WithObserver.
(** The effect of the optional [onMimeMismatch] callback is a transformation
    of some observer state [S]. *)
Context {S : Type}.

Record NormalizeOptions : Type := {
  onMimeMismatch : option (MimeMismatch -> S -> S);
}.

(** [options?.onMimeMismatch?.(ctx)] *)
Definition notifyMismatch (options : option NormalizeOptions)
    (ctx : MimeMismatch) (st : S) : S :=
  match options with
  | Some {| onMimeMismatch := Some cb |} => cb ctx st
  | _ => st
  end.

Definition resolveImageMimeType (declared detected : option JsString)
    (options : option NormalizeOptions) (st : S) : JsString * S :=
  if truthy declared && truthy detected && negb (bool_decide (declared = detected))
  then (text detected,
        notifyMismatch options
          {| declaredMime := text declared; detectedMime := text detected |} st)
  else if truthy declared then (text declared, st)
  else if truthy detected then (text detected, st)
  else (js "image/jpeg", st).

(** The payload and the two MIME candidates that [normalizeImageAttachment]
    computes from a string [data] field. *)
Definition payloadOf (raw : JsString) : JsString := fst (unwrapBase64Payload raw).

Definition declaredOf (input : ImageAttachmentInput) (raw : JsString)
  : option JsString :=
  jsOr (normalizeImageMimeType (in_mimeType input)) (snd (unwrapBase64Payload raw)).

Definition detectedOf (raw : JsString) : option JsString :=
  detectImageMimeTypeFromBase64Strict decodeBase64 (payloadOf raw).

Definition normalizeImageAttachment (input : ImageAttachmentInput)
    (options : option NormalizeOptions) (st : S)
  : option NormalizedImageAttachment * S :=
  let type_ok :=
    match in_type input with
    | VUndefined | VNull => true               (* input.type ?? 'image' *)
    | VString s => bool_decide (s = js "image")
    | VOther => false
    end in
  if negb type_ok then (None, st)
  else
    match in_data input with
    | VString raw =>
        if bool_decide (length raw = 0%nat) then (None, st)
        else
          let '(base64, hintedMime) := unwrapBase64Payload raw in
          if bool_decide (length base64 = 0%nat) then (None, st)
          else
            let declared := jsOr (normalizeImageMimeType (in_mimeType input)) hintedMime in
            let detected := detectImageMimeTypeFromBase64Strict decodeBase64 base64 in
            let '(mime, st') := resolveImageMimeType declared detected options st in
            (Some {| data := base64; mimeType := mime |}, st')
    | _ => (None, st)
    end.

End WithObserver.
End WithHost.
End MessageAttachments.

(* ===================================================================== *)
(** * src/daily-summary.ts                                                *)
(* ===================================================================== *)

Module DailySummary.

(** 55 minutes *)
Definition CHECK_INTERVAL_MS : Z := 55 * 60 * 1000.

(** The module variable [lastCheckTime], and the instants (milliseconds since
    the epoch) at which [generateSummaries] has been invoked.  What the
    generation writes is outside this model; an exception it raises is caught
    by the caller and changes nothing here. *)
Record State : Type := {
  lastCheckTime : Z;
  generations : list Z;
}.

Definition initial : State := {| lastCheckTime := 0; generations := [] |}.

Section WithTimezone.
(** [getLocalHour]: the hour of day that [Intl.DateTimeFormat] reports for an
    instant in the configured [TIMEZONE]. *)
Variable getLocalHour : Z -> Z.

(** One call with [Date.now() = now]. *)
Definition runDailySummaryIfNeeded (now : Z) (st : State) : State :=
  if now - lastCheckTime st <? CHECK_INTERVAL_MS then st
  else
    let localHour := getLocalHour now in
    if (localHour <? 2) || (3 <=? localHour)
    then {| lastCheckTime := now; generations := generations st |}
    else {| lastCheckTime := now; generations := generations st ++ [now] |}.

(** The scheduler loop calls the job once per tick. *)
Definition runTicks (ticks : list Z) (st : State) : State :=
  fold_left (fun st now => runDailySummaryIfNeeded now st) ticks st.


End WithTimezone.

Definition MS_PER_HOUR : Z := 60 * 60 * 1000.

(** The local hour when [TIMEZONE] is a fixed offset [offsetMs] from UTC.
    (Some engines print midnight as 24 rather than 0 under [hour12: false];
    either value lies outside the window of the job.) *)
Definition fixedOffsetHour (offsetMs : Z) (now : Z) : Z :=
  ((now + offsetMs) / MS_PER_HOUR) mod 24.


(** Scheduler ticks every [SCHEDULER_POLL_INTERVAL = 60000] ms from [start]. *)
Definition minuteTicks (start : Z) (n : nat) : list Z :=
  map (fun i => start + 60000 * Z.of_nat i) (seq 0 n).


End DailySummary.

(* ===================================================================== *)
(** * src/commands.ts                                                     *)
(* ===================================================================== *)

Module Commands.

(** [NewMessage & { is_from_me: boolean }] *)
Record NewMessage : Type := {
  id : string;
  chat_jid : string;
  sender : string;
  sender_name : string;
  content : string;
  timestamp : string;
  is_from_me : bool;
}.

#[export] Instance NewMessage_eq_dec : EqDecision NewMessage.
Proof. solve_decision. Defined.

(** An entry of a directory.  [locked] entries are those the process cannot
    delete (EACCES, EPERM, EBUSY): [fs.rmSync] throws on them and leaves them
    in place. *)
Record DirEntry : Type := {
  name : string;
  locked : bool;
}.

Inductive Error : Type :=
| StopRejected (jid : string)
| FsError (path : string)
| DbError.

(** What one execution does, in program order. *)
Inductive Event : Type :=
| EvStopGroup (jid : string) (force resolved : bool)
| EvRemoved (dir entry : string)
| EvRemoveFailed (folder entry : string)      (* [logger.warn] *)
| EvDeleteSession (folder : string)
| EvDeleteCached (folder : string)
| EvEnsureChat (jid : string)
| EvStoreMessage (m : NewMessage)
| EvBroadcast (jid : string) (m : NewMessage)
| EvLogReset (chatJid folder : string) (siblings : list string).  (* [logger.info] *)

(** Everything the reset reads or writes.  [Q] is the state of the injected
    queue. *)
Record World (Q : Type) : Type := mkWorld {
  registered : list (string * string);   (* registered groups: (jid, folder) *)
  queue : Q;
  files : gmap string (list DirEntry);   (* directory path -> its entries *)
  stored_sessions : gmap string string;  (* persisted: folder -> session id *)
  sessions : gmap string string;         (* [deps.sessions] *)
  chats : list string;
  messages : list NewMessage;            (* persisted message history *)
  broadcasts : list (string * NewMessage);
  trace : list Event;
}.
Arguments mkWorld {Q}.
Arguments registered {Q}.
Arguments queue {Q}.
Arguments files {Q}.
Arguments stored_sessions {Q}.
Arguments sessions {Q}.
Arguments chats {Q}.
Arguments messages {Q}.
Arguments broadcasts {Q}.
Arguments trace {Q}.

(** [CommandDeps.queue]: a forced or graceful stop of a group acts on the
    queue state and its promise either resolves ([true]) or rejects. *)
Record CommandDeps (Q : Type) : Type := {
  stopGroup : string -> bool -> Q -> bool * Q;
}.
Arguments stopGroup {Q}.

(** The values that [crypto.randomUUID()] and [new Date().toISOString()]
    return during one call, and whether the write of the marker fails. *)
Record CallEnv : Type := {
  randomUUID : string;
  nowISO : string;
  storeFails : bool;
}.

Inductive Result (A : Type) : Type :=
| Ok (a : A)
| Err (e : Error).
Arguments Ok {A}.
Arguments Err {A}.

Section WithDeps.
Context {Q : Type}.
Variable DATA_DIR : string.
Variable deps : CommandDeps Q.

(** Computations that read and write the world and may throw; what was
    written before a throw stays written. *)
Definition M (A : Type) : Type := World Q -> Result A * World Q.

Definition ret {A} (a : A) : M A := fun w => (Ok a, w).
Definition throw {A} (e : Error) : M A := fun w => (Err e, w).
Definition bind {A B} (m : M A) (k : A -> M B) : M B :=
  fun w => match m w with
           | (Ok a, w') => k a w'
           | (Err e, w') => (Err e, w')
           end.
Definition tryCatch {A} (m : M A) (handler : Error -> M A) : M A :=
  fun w => match m w with
           | (Ok a, w') => (Ok a, w')
           | (Err e, w') => handler e w'
           end.
Definition gets {A} (f : World Q -> A) : M A := fun w => (Ok (f w), w).
Definition modify (f : World Q -> World Q) : M unit := fun w => (Ok tt, f w).

#[local] Instance M_ret : MRet M := @ret.
#[local] Instance M_bind : MBind M := fun A B k m => bind m k.

Definition emit (e : Event) : M unit :=
  modify (fun w => mkWorld (registered w) (queue w) (files w) (stored_sessions w)
                     (sessions w) (chats w) (messages w) (broadcasts w)
                     (trace w ++ [e])).

(** [for (const x of xs) body(x)] *)
Fixpoint forEach {A} (xs : list A) (body : A -> M unit) : M unit :=
  match xs with
  | [] => ret tt
  | x :: xs' => body x ;; forEach xs' body
  end.

(** [await Promise.all(ps)]: every promise of the array has been created, so
    every call takes effect; the result rejects as soon as one of them
    rejects and resolves once all have resolved.  Each call is taken as one
    atomic step, in array order. *)
Fixpoint promiseAll (ps : list (M unit)) : M unit :=
  match ps with
  | [] => ret tt
  | p :: ps' =>
      fun w =>
        let '(r, w1) := p w in
        let '(rs, w2) := promiseAll ps' w1 in
        (match r with Ok _ => rs | Err e => Err e end, w2)
  end.

(** ** Collaborators *)

(** Modelled from the spec: [getJidsByFolder] of [db.js] is not under src/;
    the Session Store's [listGroupsByFolder(folder) -> GroupKey[]]. *)
Definition getJidsByFolder (folder : string) : M (list string) :=
  gets (fun w => map fst (filter (fun p => p.2 = folder) (registered w))).

(** Modelled from the spec: [deleteSession] of [db.js] is not under src/;
    the Session Store's [deleteSession(folder)]. *)
Definition deleteSession (folder : string) : M unit :=
  modify (fun w => mkWorld (registered w) (queue w) (files w)
                     (delete folder (stored_sessions w))
                     (sessions w) (chats w) (messages w) (broadcasts w) (trace w)) ;;
  emit (EvDeleteSession folder).

Definition ensured (jid : string) (cs : list string) : list string :=
  if bool_decide (jid ∈ cs) then cs else cs ++ [jid].

(** Modelled from the spec: [ensureChatExists] of [db.js] is not under src/;
    it registers the chat if it is not known yet. *)
Definition ensureChatExists (jid : string) : M unit :=
  modify (fun w => mkWorld (registered w) (queue w) (files w) (stored_sessions w)
                     (sessions w) (ensured jid (chats w))
                     (messages w) (broadcasts w) (trace w)) ;;
  emit (EvEnsureChat jid).

(** Modelled from the spec: [storeMessageDirect] of [db.js] is not under
    src/; the Session Store's [appendMessage(group, message)], the one write
    whose failure the reset reports. *)
Definition storeMessageDirect (env : CallEnv) (m : NewMessage) : M unit :=
  if storeFails env then throw DbError
  else
    modify (fun w => mkWorld (registered w) (queue w) (files w) (stored_sessions w)
                       (sessions w) (chats w) (messages w ++ [m]) (broadcasts w)
                       (trace w)) ;;
    emit (EvStoreMessage m).

(** [deps.queue.stopGroup(j, { force })] *)
Definition queueStopGroup (jid : string) (force : bool) : M unit :=
  fun w =>
    let '(resolved, q') := stopGroup deps jid force (queue w) in
    let w' := mkWorld (registered w) q' (files w) (stored_sessions w) (sessions w)
                (chats w) (messages w) (broadcasts w)
                (trace w ++ [EvStopGroup jid force resolved]) in
    (if resolved then Ok tt else Err (StopRejected jid), w').

(** [deps.broadcast(jid, msg)] *)
Definition broadcast (jid : string) (m : NewMessage) : M unit :=
  modify (fun w => mkWorld (registered w) (queue w) (files w) (stored_sessions w)
                     (sessions w) (chats w) (messages w)
                     (broadcasts w ++ [(jid, m)]) (trace w)) ;;
  emit (EvBroadcast jid m).

(** The file system is a map from the path of a directory to its entries: a
    path that exists here is a directory that can be listed. *)

(** [fs.existsSync(dir)] *)
Definition existsSync (dir : string) : M bool :=
  gets (fun w => bool_decide (is_Some (files w !! dir))).

(** [fs.readdirSync(dir)] *)
Definition readdirSync (dir : string) : M (list string) :=
  fun w => match files w !! dir with
           | Some entries => (Ok (map name entries), w)
           | None => (Err (FsError dir), w)
           end.

Definition isLocked (entries : list DirEntry) (entry : string) : bool :=
  existsb (fun e => bool_decide (name e = entry) && locked e) entries.

(** [fs.rmSync(path.join(dir, entry), { recursive: true, force: true })]:
    with [force] a missing path is not an error. *)
Definition rmSync (dir entry : string) : M unit :=
  fun w => match files w !! dir with
           | Some entries =>
               if isLocked entries entry then (Err (FsError entry), w)
               else
                 (Ok tt,
                  mkWorld (registered w) (queue w)
                    (<[dir := filter (fun e => name e ≠ entry) entries]> (files w))
                    (stored_sessions w) (sessions w) (chats w) (messages w)
                    (broadcasts w) (trace w ++ [EvRemoved dir entry]))
           | None => (Ok tt, w)
           end.

(** ** Session file cleanup *)

(** [path.join(DATA_DIR, 'sessions', folder, '.claude')] *)
Definition claudeDirOf (folder : string) : string :=
  DATA_DIR +:+ "/sessions/" +:+ folder +:+ "/.claude".

(** [new Set(['settings.json'])] *)
Definition keep : list string := ["settings.json"].

Definition clearSessionFiles (folder : string) : M unit :=
  let claudeDir := claudeDirOf folder in
  present ← existsSync claudeDir;
  if negb present then ret tt
  else
    entries ← readdirSync claudeDir;
    forEach entries (fun entry =>
      if bool_decide (entry ∈ keep) then ret tt
      else tryCatch (rmSync claudeDir entry)
                    (fun _ => emit (EvRemoveFailed folder entry))).

(** ** Core reset *)

Definition dividerMessage (env : CallEnv) (chatJid : string) : NewMessage :=
  {| id := randomUUID env;
     chat_jid := chatJid;
     sender := "__system__";
     sender_name := "system";
     content := "context_reset";
     timestamp := nowISO env;
     is_from_me := true |}.

Definition executeSessionReset (env : CallEnv) (chatJid folder : string) : M unit :=
  siblingJids ← getJidsByFolder folder;
  (* 1. Stop all running containers/processes for this folder *)
  promiseAll (map (fun j => queueStopGroup j true) siblingJids) ;;
  (* 2. Clear .claude/ session files (preserve settings.json) *)
  clearSessionFiles folder ;;
  (* 3. Delete session from DB + in-memory cache *)
  deleteSession folder ;;
  modify (fun w => mkWorld (registered w) (queue w) (files w) (stored_sessions w)
                     (delete folder (sessions w)) (chats w) (messages w)
                     (broadcasts w) (trace w)) ;;
  emit (EvDeleteCached folder) ;;
  (* 4. Insert context_reset divider message *)
  ensureChatExists chatJid ;;
  storeMessageDirect env (dividerMessage env chatJid) ;;
  broadcast chatJid (dividerMessage env chatJid) ;;
  emit (EvLogReset chatJid folder siblingJids).

(** ** What the two loops amount to *)

(** The siblings of a folder, as [getJidsByFolder] lists them. *)
Definition siblingsOf (folder : string) (w : World Q) : list string :=
  map fst (filter (fun p => p.2 = folder) (registered w)).

(** The outcome of the forced stop of each group in turn, and the queue
    afterwards. *)
Fixpoint stopAll (jids : list string) (q : Q) : list (string * bool) * Q :=
  match jids with
  | [] => ([], q)
  | j :: jids' =>
      let '(r, q1) := stopGroup deps j true q in
      let '(rs, q2) := stopAll jids' q1 in
      ((j, r) :: rs, q2)
  end.

Definition stopEvent (o : string * bool) : Event := EvStopGroup o.1 true o.2.

(** The first rejection among the outcomes, if any. *)
Definition firstRejection (outs : list (string * bool)) : Result unit :=
  match List.find (fun o => negb o.2) outs with
  | Some o => Err (StopRejected o.1)
  | None => Ok tt
  end.

(** What is left of a listing once the names in [names] have been visited. *)
Definition sweep (names : list string) (entries : list DirEntry) : list DirEntry :=
  filter (fun e => name e ∉ names \/ name e ∈ keep \/ isLocked entries (name e) = true)
         entries.

(** The entries that a cleanup of a directory leaves behind: the kept names
    and the names that could not be deleted. *)
Definition survivors (entries : list DirEntry) : list DirEntry :=
  filter (fun e => name e ∈ keep \/ isLocked entries (name e) = true) entries.

(** The file system after the cleanup of a folder's session directory. *)
Definition cleared (folder : string) (fs : gmap string (list DirEntry))
  : gmap string (list DirEntry) :=
  match fs !! claudeDirOf folder with
  | Some entries => <[claudeDirOf folder := survivors entries]> fs
  | None => fs
  end.

(** ** The claims in the words of the specification *)


(** The message history of one chat. *)
Definition history (jid : string) (w : World Q) : list NewMessage :=
  filter (fun m => chat_jid m = jid) (messages w).

(** "A successful reset inserts exactly one system marker message with
    content [text] into the originating chat's history, into no other
    chat's, and broadcasts that same message." *)
Definition insertsMarker (text : string) (env : CallEnv) (chatJid folder : string)
    (w : World Q) : Prop :=
  forall w', executeSessionReset env chatJid folder w = (Ok tt, w') ->
    exists m,
      content m = text /\ sender m = "__system__" /\ chat_jid m = chatJid /\
      messages w' = messages w ++ [m] /\
      history chatJid w' = history chatJid w ++ [m] /\
      (forall other, other <> chatJid -> history other w' = history other w) /\
      broadcasts w' = broadcasts w ++ [(chatJid, m)].



End WithDeps.

(** ** Order of events *)

Definition isStop (e : Event) : Prop :=
  match e with EvStopGroup _ _ _ => True | _ => False end.
Definition isArtifactRemoval (e : Event) : Prop :=
  match e with EvRemoved _ _ | EvRemoveFailed _ _ => True | _ => False end.
Definition isSessionDelete (e : Event) : Prop :=
  match e with EvDeleteSession _ | EvDeleteCached _ => True | _ => False end.
Definition isMarkerInsert (e : Event) : Prop :=
  match e with EvStoreMessage _ => True | _ => False end.
Definition isBroadcast (e : Event) : Prop :=
  match e with EvBroadcast _ _ => True | _ => False end.

(** Every [P]-event of the sequence comes before every [R]-event. *)
Definition precedes (P R : Event -> Prop) (evs : list Event) : Prop :=
  forall (i j : nat) (a b : Event),
    evs !! i = Some a -> evs !! j = Some b -> P a -> R b -> (i < j)%nat.

(** The order the specification requires of the events of one reset: stops
    before the removal of artifacts; removal of artifacts and deletion of the
    session before the insertion of the marker and before its broadcast; the
    insertion before the broadcast. *)
Definition resetOrder (evs : list Event) : Prop :=
  precedes isStop isArtifactRemoval evs /\
  precedes isArtifactRemoval isMarkerInsert evs /\
  precedes isArtifactRemoval isBroadcast evs /\
  precedes isSessionDelete isMarkerInsert evs /\
  precedes isSessionDelete isBroadcast evs /\
  precedes isMarkerInsert isBroadcast evs.

End Commands.

(* ===================================================================== *)
(** * The Group Execution Queue                                           *)
(* ===================================================================== *)

(** Modelled from the spec: the queue ([src/group-queue.ts], imported by the
    web server and injected into the reset as [CommandDeps.queue]) is not
    under src/.  The model follows sections 3 and 4.1 of the specification:
    one entry per group key, the state machine
    IDLE / QUEUED / RUNNING / STOPPING, coalescing of enqueues, and the
    Sandbox Runner's table of live processes. *)
Module GroupQueue.

Inductive RunState : Type := IDLE | QUEUED | RUNNING | STOPPING.

#[export] Instance RunState_eq_dec : EqDecision RunState.
Proof. solve_decision. Defined.

(** The handle of a sandbox process, as the Sandbox Runner hands it out. *)
Definition Handle : Type := nat.

Record QueueEntry : Type := {
  state : RunState;
  pendingCount : nat;
  ownerHandle : option Handle;
  lastActivityAt : Z;
}.

(** The queue map together with the Sandbox Runner's live processes, each
    recorded with the group it was started for. *)
Record Queue : Type := {
  entries : gmap string QueueEntry;
  live : list (string * Handle);
  nextHandle : Handle;
}.

Definition empty : Queue := {| entries := ∅; live := []; nextHandle := 0%nat |}.

Definition idleEntry : QueueEntry :=
  {| state := IDLE; pendingCount := 0; ownerHandle := None; lastActivityAt := 0 |}.

(** A missing entry is treated as IDLE. *)
Definition entryOf (k : string) (q : Queue) : QueueEntry :=
  default idleEntry (entries q !! k).

(** An entry is removed from the map when it is IDLE with nothing pending and
    no owner handle. *)
Definition collectable (e : QueueEntry) : bool :=
  bool_decide (state e = IDLE) && bool_decide (pendingCount e = 0%nat)
  && bool_decide (ownerHandle e = None).

Definition putEntry (k : string) (e : QueueEntry) (q : Queue) : Queue :=
  {| entries := if collectable e then delete k (entries q) else <[k := e]> (entries q);
     live := live q;
     nextHandle := nextHandle q |}.

(** Sandbox Runner: [start(group)] creates a process, [kill(handle)] and a
    process exit remove it. *)
Definition runnerStart (k : string) (q : Queue) : Handle * Queue :=
  (nextHandle q,
   {| entries := entries q;
      live := live q ++ [(k, nextHandle q)];
      nextHandle := S (nextHandle q) |}).

Definition runnerGone (k : string) (h : Handle) (q : Queue) : Queue :=
  {| entries := entries q;
     live := filter (fun p => p ≠ (k, h)) (live q);
     nextHandle := nextHandle q |}.

(** The entry of [k] gives up its handle, if it owns one, and the process is
    gone. *)
Definition release (k : string) (q : Queue) : Queue :=
  match ownerHandle (entryOf k q) with
  | Some h => runnerGone k h q
  | None => q
  end.

(** The live handles that belong to a group key. *)
Definition liveHandles (k : string) (q : Queue) : list (string * Handle) :=
  filter (fun p => p.1 = k) (live q).

Definition enqueue (now : Z) (k : string) (q : Queue) : Queue :=
  let e := entryOf k q in
  match state e with
  | IDLE =>
      putEntry k {| state := QUEUED; pendingCount := S (pendingCount e);
                    ownerHandle := ownerHandle e; lastActivityAt := now |} q
  | _ =>
      putEntry k {| state := state e; pendingCount := S (pendingCount e);
                    ownerHandle := ownerHandle e; lastActivityAt := now |} q
  end.

Definition ensureStarted (now : Z) (k : string) (q : Queue) : bool * Queue :=
  let e := entryOf k q in
  match state e with
  | IDLE =>
      (true, putEntry k {| state := QUEUED; pendingCount := pendingCount e;
                           ownerHandle := ownerHandle e; lastActivityAt := now |} q)
  | QUEUED | RUNNING => (true, q)
  | STOPPING => (false, q)
  end.

(** QUEUED to RUNNING.  The transition first checks that no handle is owned
    for the key; [started] tells whether the Sandbox Runner could start the
    process. *)
Definition dispatch (now : Z) (k : string) (started : bool) (q : Queue) : Queue :=
  let e := entryOf k q in
  match state e, ownerHandle e with
  | QUEUED, None =>
      if started then
        let '(h, q1) := runnerStart k q in
        putEntry k {| state := RUNNING; pendingCount := 0;
                      ownerHandle := Some h; lastActivityAt := now |} q1
      else
        putEntry k {| state := IDLE; pendingCount := pendingCount e;
                      ownerHandle := None; lastActivityAt := now |} q
  | _, _ => q
  end.

(** The execution completes: back to QUEUED when input arrived meanwhile,
    otherwise IDLE. *)
Definition complete (now : Z) (k : string) (q : Queue) : Queue :=
  let e := entryOf k q in
  match state e with
  | RUNNING =>
      putEntry k {| state := if bool_decide (0 < pendingCount e)%nat then QUEUED else IDLE;
                    pendingCount := pendingCount e;
                    ownerHandle := None; lastActivityAt := now |} (release k q)
  | _ => q
  end.

(** RUNNING or STOPPING to IDLE, the handle discarded: a graceful exit, the
    escalation after the grace period, and a crash all end here. *)
Definition toIdle (now : Z) (k : string) (q : Queue) : Queue :=
  let e := entryOf k q in
  putEntry k {| state := IDLE; pendingCount := pendingCount e;
                ownerHandle := None; lastActivityAt := now |} (release k q).

Definition gracefulExit (now : Z) (k : string) (q : Queue) : Queue :=
  match state (entryOf k q) with
  | STOPPING => toIdle now k q
  | _ => q
  end.

Definition stopTimeout (now : Z) (k : string) (q : Queue) : Queue :=
  match state (entryOf k q) with
  | STOPPING => toIdle now k q
  | _ => q
  end.

Definition crash (now : Z) (k : string) (q : Queue) : Queue :=
  match state (entryOf k q) with
  | RUNNING | STOPPING => toIdle now k q
  | _ => q
  end.

(** [stopGroup(group, {force})].  [killed] tells whether the kill primitive
    worked; when it did not, the promise rejects and the state is left as it
    was.  On an IDLE group the call is a no-op success; on a QUEUED group it
    cancels the pending dispatch. *)
Definition stopGroup (now : Z) (killed : bool) (k : string) (force : bool)
    (q : Queue) : bool * Queue :=
  let e := entryOf k q in
  match state e with
  | IDLE => (true, q)
  | QUEUED =>
      (true, putEntry k {| state := IDLE; pendingCount := 0;
                           ownerHandle := ownerHandle e; lastActivityAt := now |} q)
  | RUNNING =>
      if force then
        if killed then (true, toIdle now k q) else (false, q)
      else
        (true, putEntry k {| state := STOPPING; pendingCount := pendingCount e;
                             ownerHandle := ownerHandle e; lastActivityAt := now |} q)
  | STOPPING =>
      if force then
        if killed then (true, toIdle now k q) else (false, q)
      else (true, q)
  end.

(** What can happen to the queue. *)
Inductive Op : Type :=
| OpEnqueue (k : string)
| OpEnsureStarted (k : string)
| OpDispatch (k : string) (started : bool)
| OpComplete (k : string)
| OpStop (k : string) (force killed : bool)
| OpGracefulExit (k : string)
| OpStopTimeout (k : string)
| OpCrash (k : string).

Definition step (now : Z) (op : Op) (q : Queue) : Queue :=
  match op with
  | OpEnqueue k => enqueue now k q
  | OpEnsureStarted k => snd (ensureStarted now k q)
  | OpDispatch k started => dispatch now k started q
  | OpComplete k => complete now k q
  | OpStop k force killed => snd (stopGroup now killed k force q)
  | OpGracefulExit k => gracefulExit now k q
  | OpStopTimeout k => stopTimeout now k q
  | OpCrash k => crash now k q
  end.

(** The states of the queue that some history of operations leads to. *)
Inductive reachable : Queue -> Prop :=
| reachable_empty : reachable empty
| reachable_step now op q : reachable q -> reachable (step now op q).

(** The handles of the live processes of a key are exactly the handle its
    entry owns. *)
Definition handlesAgree (q : Queue) : Prop :=
  forall k, liveHandles k q =
            match ownerHandle (entryOf k q) with
            | Some h => [(k, h)]
            | None => []
            end.

(** The queue as the reset sees it; [killed] tells whether the kill
    primitive works. *)
Definition asDeps (now : Z) (killed : bool) : Commands.CommandDeps Queue :=
  {| Commands.stopGroup := fun k force q => stopGroup now killed k force q |}.

End GroupQueue.

(* ===================================================================== *)
(** * A deployment                                                        *)
(* ===================================================================== *)

(** The scenario of the specification: folder [main] backs the home group
    [web:main] and its IM sibling [feishu:oc_1], both RUNNING; the session
    directory holds the settings, a transcript, a directory of projects and
    a file that cannot be deleted. *)
Module Scenario.
Import Commands.

Definition DATA_DIR : string := "/app/data".

Definition bothRunning : GroupQueue.Queue :=
  GroupQueue.step 4 (GroupQueue.OpDispatch "feishu:oc_1" true)
    (GroupQueue.step 3 (GroupQueue.OpEnqueue "feishu:oc_1")
       (GroupQueue.step 2 (GroupQueue.OpDispatch "web:main" true)
          (GroupQueue.step 1 (GroupQueue.OpEnqueue "web:main") GroupQueue.empty))).

Definition sessionDir : list DirEntry :=
  [ {| name := "settings.json"; locked := false |};
    {| name := "3f2a.jsonl"; locked := false |};
    {| name := "projects"; locked := false |};
    {| name := "busy.lock"; locked := true |} ].

Definition world : World GroupQueue.Queue :=
  mkWorld
    [("web:main", "main"); ("feishu:oc_1", "main"); ("web:other", "other")]
    bothRunning
    {[ "/app/data/sessions/main/.claude" := sessionDir ]}
    {[ "main" := "session-1"; "other" := "session-2" ]}
    {[ "main" := "session-1"; "other" := "session-2" ]}
    ["web:main"; "web:other"]
    []
    []
    [].

Definition firstCall : CallEnv :=
  {| randomUUID := "0b0e4c0a-5d7e-4c58-9a3f-6f5d2f3f9a01";
     nowISO := "2026-01-01T02:00:00.000Z";
     storeFails := false |}.


End Scenario.

(* ===================================================================== *)
(** * shared/image-detector.ts, the fallback front ends                   *)
(* ===================================================================== *)

Module ImageFallback.
Import Js ImageDetector.

Section WithBase64.
(** [Buffer.from(s, 'base64')] *)
Variable decodeBase64 : JsString -> Buffer.

(** [detectImageMimeTypeFromBase64Strict(base64Data) || 'image/jpeg'] *)
Definition detectImageMimeTypeFromBase64 (base64Data : JsString) : JsString :=
  match detectImageMimeTypeFromBase64Strict decodeBase64 base64Data with
  | Some ((_ :: _) as m) => m
  | _ => js "image/jpeg"
  end.

End WithBase64.

(** The magic numbers the detector looks for, as byte sequences. *)
Definition PNG_MAGIC : Buffer := [0x89; 0x50; 0x4e; 0x47; 0x0d; 0x0a; 0x1a; 0x0a].
Definition JPEG_MAGIC : Buffer := [0xff; 0xd8; 0xff].
Definition GIF_MAGIC : Buffer := [0x47; 0x49; 0x46; 0x38].
Definition RIFF_MAGIC : Buffer := [0x52; 0x49; 0x46; 0x46].
Definition WEBP_MAGIC : Buffer := [0x57; 0x45; 0x42; 0x50].
Definition TIFF_LE_MAGIC : Buffer := [0x49; 0x49; 0x2a; 0x00].
Definition TIFF_BE_MAGIC : Buffer := [0x4d; 0x4d; 0x00; 0x2a].
Definition BMP_MAGIC : Buffer := [0x42; 0x4d].

(** Bytes 4 to 11 spell [ftyp] and the brand [avif] or [avis], read through
    the ASCII decoder. *)
Definition hasAvifBrand (buffer : Buffer) : Prop :=
  toStringAscii buffer 4 8 = js "ftyp" /\
  (toStringAscii buffer 8 12 = js "avif" \/ toStringAscii buffer 8 12 = js "avis").

End ImageFallback.

(* ===================================================================== *)
(** * src/message-attachments.ts, lists of attachments                    *)
(* ===================================================================== *)

Module AttachmentLists.
Import Js ImageDetector MessageAttachments.

(** An element of the [inputs] array: an object, read as an
    [ImageAttachmentInput], or anything that fails
    [item && typeof item === 'object']. *)
Inductive Item : Type :=
| ItemObject (input : ImageAttachmentInput)
| ItemOther.

(** The argument [inputs: unknown]. *)
Inductive Inputs : Type :=
| NotAnArray
| ArrayOf (items : list Item).

Record AgentImage : Type := {
  img_data : JsString;
  img_mimeType : JsString;
}.

Section WithHost.
Variable toLowerCase : JsString -> JsString.
Variable decodeBase64 : JsString -> Buffer.
Context {S : Type}.

(** The loop of [normalizeImageAttachments]. *)
Fixpoint normalizeItems (items : list Item) (options : option (@NormalizeOptions S))
    (st : S) : list NormalizedImageAttachment * S :=
  match items with
  | [] => ([], st)
  | ItemOther :: rest => normalizeItems rest options st
  | ItemObject input :: rest =>
      let '(out, st1) :=
        normalizeImageAttachment toLowerCase decodeBase64 input options st in
      let '(outs, st2) := normalizeItems rest options st1 in
      (match out with Some att => att :: outs | None => outs end, st2)
  end.

Definition normalizeImageAttachments (inputs : Inputs)
    (options : option (@NormalizeOptions S)) (st : S)
  : list NormalizedImageAttachment * S :=
  match inputs with
  | NotAnArray => ([], st)
  | ArrayOf items => normalizeItems items options st
  end.

End WithHost.

(** [toAgentImages]; [None] is [undefined]. *)
Definition toAgentImages (attachments : option (list NormalizedImageAttachment))
  : option (list AgentImage) :=
  match attachments with
  | None | Some [] => None
  | Some atts =>
      Some (map (fun att => {| img_data := data att; img_mimeType := mimeType att |}) atts)
  end.

(** A data URL with the given media type and payload. *)
Definition dataUrl (mime payload : JsString) : JsString :=
  js "data:" ++ mime ++ js ";base64," ++ payload.

(** What every normalised attachment satisfies: a payload that is not empty
    and holds no white space, and a MIME type under [image/]. *)
Definition wellFormed (att : NormalizedImageAttachment) : Prop :=
  data att <> [] /\
  Forall (fun c => isWhiteSpace c = false) (data att) /\
  startsWith (mimeType att) (js "image/") = true.

End AttachmentLists.

(* ===================================================================== *)
(** * src/daily-summary.ts, the text of a summary                         *)
(* ===================================================================== *)

Module DailySummaryText.
Import Js.

(** [text.replace(/\n/g, ' ')] *)
Definition replaceLineFeeds (text : JsString) : JsString :=
  map (fun c => if bool_decide (c = 0x0A)%N then 0x20%N else c) text.

(** [maxLen] is a non-negative integer at every call site (200). *)
Definition truncate (text : JsString) (maxLen : nat) : JsString :=
  let singleLine := trim (replaceLineFeeds text) in
  if bool_decide (length singleLine <= maxLen)%nat then singleLine
  else take maxLen singleLine ++ js "...".


(** [a || b] on strings that may be missing: the first that is present and
    not empty. *)
Definition orElse (a : option JsString) (b : JsString) : JsString :=
  match a with
  | Some ((_ :: _) as s) => s
  | _ => b
  end.



End DailySummaryText.

(* ===================================================================== *)
(** * src/web-context.ts                                                  *)
(* ===================================================================== *)

(** The shared utilities of the web server: the cookie parser and the
    access rules for groups. *)
Module WebContext.
Import Js.

(** ** Cookies *)

(** [s.split(sep)] for a separator of one code unit; the result is never
    empty. *)
Fixpoint split (sep : N) (s : JsString) : list JsString :=
  match s with
  | [] => [[]]
  | c :: s' =>
      if bool_decide (c = sep) then [] :: split sep s'
      else match split sep s' with
           | piece :: pieces => (c :: piece) :: pieces
           | [] => [[c]]
           end
  end.

(** [s.indexOf(c)]; [None] is [-1]. *)
Fixpoint indexOf (c : N) (s : JsString) : option nat :=
  match s with
  | [] => None
  | d :: s' => if bool_decide (d = c) then Some 0%nat else S <$> indexOf c s'
  end.

(** [cookies[key] = value] on an object created by [{}]: the key
    [__proto__] reaches the setter of [Object.prototype], which ignores a
    string, so no own property is created for it. *)
Definition setProperty (key value : JsString) (cookies : gmap JsString JsString)
  : gmap JsString JsString :=
  if bool_decide (key = js "__proto__") then cookies else <[key := value]> cookies.

(** The body of the loop over [cookieHeader.split(';')]. *)
Definition parseCookiePiece (cookies : gmap JsString JsString) (cookie : JsString)
  : gmap JsString JsString :=
  let pair := trim cookie in
  match indexOf 0x3D pair with
  | None => cookies
  | Some eqIndex =>
      let key := trim (take eqIndex pair) in
      let value := trim (drop (S eqIndex) pair) in
      match key with
      | [] => cookies
      | _ :: _ => setProperty key value cookies
      end
  end.

(** [parseCookie]; the header is [None] when it is [undefined].  The result
    holds the own properties of the object that is returned. *)
Definition parseCookie (cookieHeader : option JsString) : gmap JsString JsString :=
  match cookieHeader with
  | None | Some [] => ∅
  | Some header => fold_left parseCookiePiece (split 0x3B header) ∅
  end.

(** One cookie as it stands in a header: [name=value]. *)
Definition pairText (kv : JsString * JsString) : JsString := kv.1 ++ 0x3D%N :: kv.2.

(** The [Cookie] header that a client sends for a list of cookies:
    [name=value] pairs joined by a semicolon and a space. *)
Fixpoint cookieHeaderOf (cookies : list (JsString * JsString)) : JsString :=
  match cookies with
  | [] => []
  | [(k, v)] => k ++ 0x3D%N :: v
  | (k, v) :: rest => k ++ 0x3D%N :: v ++ 0x3B%N :: 0x20%N :: cookieHeaderOf rest
  end.

(** A string without white space at either end. *)
Definition tidy (s : JsString) : Prop := trim s = s.

(** A cookie name and value as RFC 6265 allows them, as far as the parser
    cares: no separator inside, no white space at the ends. *)
Definition cookieName (k : JsString) : Prop :=
  k <> [] /\ tidy k /\ (0x3D%N ∉ k) /\ (0x3B%N ∉ k) /\ k <> js "__proto__".

Definition cookieValue (v : JsString) : Prop := tidy v /\ (0x3B%N ∉ v).

(** ** Access rules *)

(** The fields of [RegisteredGroup & { jid: string }] that the rules read;
    [None] stands for a missing [created_by] or [executionMode]. *)
Record RegisteredGroup : Type := {
  jid : string;
  folder : string;
  is_home : bool;
  created_by : option string;
  executionMode : option string;
}.

Record User : Type := {
  id : string;
  role : string;
}.

(** Truthiness of an optional string. *)
Definition present (o : option string) : bool :=
  match o with
  | Some s => negb (bool_decide (s = ""%string))
  | None => false
  end.

(** [(group.executionMode || 'container') === 'host'] *)
Definition isHostExecutionGroup (group : RegisteredGroup) : bool :=
  bool_decide ((if present (executionMode group) then executionMode group
                else Some "container"%string) = Some "host"%string).

Definition hasHostExecutionPermission (user : User) : bool :=
  bool_decide (role user = "admin"%string).

(** [group.created_by === user.id] *)
Definition createdBy (group : RegisteredGroup) (user : User) : bool :=
  bool_decide (created_by group = Some (id user)).

Section WithDb.
(** The queries of [db.js]: the role of a user in a folder ([None] is
    [null]), the groups of a folder, and a group by its jid. *)
Variable getGroupMemberRole : string -> string -> option string.
Variable getJidsByFolder : string -> list string.
Variable getRegisteredGroup : string -> option RegisteredGroup.

(** The loop of [canAccessGroup] over the siblings of a legacy IM group. *)
Fixpoint ownerFromSiblings (user : User) (group : RegisteredGroup)
    (siblingJids : list string) : bool :=
  match siblingJids with
  | [] => false   (* ownership cannot be resolved: deny *)
  | j :: rest =>
      if bool_decide (j = jid group) then ownerFromSiblings user group rest
      else
        match getRegisteredGroup j with
        | Some sibling =>
            if is_home sibling && present (created_by sibling)
            then createdBy sibling user
            else ownerFromSiblings user group rest
        | None => ownerFromSiblings user group rest
        end
  end.

Definition canAccessGroup (user : User) (group : RegisteredGroup) : bool :=
  if is_home group then createdBy group user
  else if negb (String.prefix "web:" (jid group)) then
    if createdBy group user then true
    else if bool_decide (is_Some (getGroupMemberRole (folder group) (id user))) then true
    else if present (created_by group) then false
    else ownerFromSiblings user group (getJidsByFolder (folder group))
  else if bool_decide (folder group = "main"%string) then
    if createdBy group user then true
    else bool_decide (is_Some (getGroupMemberRole (folder group) (id user)))
  else
    if createdBy group user then true
    else bool_decide (is_Some (getGroupMemberRole (folder group) (id user))).

End WithDb.

Definition canModifyGroup (user : User) (group : RegisteredGroup) : bool :=
  if is_home group then createdBy group user
  else if negb (String.prefix "web:" (jid group)) then createdBy group user
  else createdBy group user.

Definition canManageGroupMembers (user : User) (group : RegisteredGroup) : bool :=
  if is_home group then false else createdBy group user.

Definition canDeleteGroup (user : User) (group : RegisteredGroup) : bool :=
  if is_home group then false else canModifyGroup user group.

End WebContext.

(* ========================================================================= *)
(** * web/src/hooks/useTheme.ts: the theme hook                              *)
(* ========================================================================= *)

Module Theme.
Import Js.

(** [type Theme = 'light' | 'dark' | 'system'] *)
Inductive Theme : Type := light | dark | system.

Definition themeName (t : Theme) : JsString :=
  match t with
  | light => js "light"
  | dark => js "dark"
  | system => js "system"
  end.

Definition STORAGE_KEY : JsString := js "happyclaw-theme".

(** What the hook reads and writes in a browser: [window.localStorage], the
    answer of [matchMedia('(prefers-color-scheme: dark)')] and the class list
    of [document.documentElement]. *)
Record Browser : Type := mkBrowser {
  localStorage : gmap JsString JsString;
  prefersDark : bool;
  classList : gset JsString;
}.

(** [None] where [window] and [document] are undefined (a render on the
    server). *)
Definition World : Type := option Browser.

Definition getSystemTheme (w : World) : Theme :=
  match w with
  | None => light
  | Some b => if prefersDark b then dark else light
  end.

Definition readTheme (w : World) : Theme :=
  match w with
  | None => system
  | Some b =>
      match localStorage b !! STORAGE_KEY with
      | Some stored =>
          if bool_decide (stored = js "light") then light
          else if bool_decide (stored = js "dark") then dark
          else system
      | None => system
      end
  end.

Definition resolveTheme (w : World) (theme : Theme) : Theme :=
  match theme with
  | system => getSystemTheme w
  | _ => theme
  end.

(** [classList.toggle(token, force)] *)
Definition classToggle (token : JsString) (force : bool) (classes : gset JsString)
  : gset JsString :=
  if force then {[token]} ∪ classes else classes ∖ {[token]}.

Definition isDark (theme : Theme) : bool :=
  match theme with dark => true | _ => false end.

Definition applyTheme (theme : Theme) (w : World) : World :=
  match w with
  | None => None
  | Some b =>
      Some (mkBrowser (localStorage b) (prefersDark b)
              (classToggle (js "dark") (isDark (resolveTheme w theme)) (classList b)))
  end.

(** [setTheme] of [useTheme]; the calls of the listeners, which make React
    read the snapshot again, change nothing of the browser. *)
Definition setTheme (t : Theme) (w : World) : World :=
  let stored :=
    match w with
    | None => None
    | Some b =>
        Some (mkBrowser
                match t with
                | system => delete STORAGE_KEY (localStorage b)
                | _ => <[STORAGE_KEY := themeName t]> (localStorage b)
                end
                (prefersDark b) (classList b))
    end in
  applyTheme t stored.

(** The cycle of [toggle]: light, dark, system, light. *)
Definition nextTheme (theme : Theme) : Theme :=
  match theme with
  | light => dark
  | dark => system
  | system => light
  end.

(** [toggle], in a render whose snapshot is [theme]. *)
Definition toggle (theme : Theme) (w : World) : World := setTheme (nextTheme theme) w.

(** A click on the toggle after the hook has rendered the stored theme. *)
Definition click (w : World) : World := toggle (readTheme w) w.

End Theme.

(* ========================================================================= *)
(** * web/src/pages/ChatPage.tsx: the group of a route                       *)
(* ========================================================================= *)

Module ChatPage.
Import Js.

(** The fields of a group that the page reads; [is_home] stands for
    [!!info.is_home]. *)
Record GroupInfo : Type := mkGroupInfo {
  folder : JsString;
  is_home : bool;
}.

(** [a || b] on the results of [find]: an entry is an array and so truthy. *)
Definition orElse {A : Type} (a b : option A) : option A :=
  match a with
  | Some e => Some e
  | None => b
  end.

Definition isWeb (jid : JsString) : bool := startsWith jid (js "web:").

(** The [useMemo] that computes [routeGroupJid]; [groups] is the list
    [Object.entries(groups)] and [None] stands for [null] and an undefined
    route parameter. *)
Definition routeGroupJid (groupFolder : option JsString)
    (groups : list (JsString * GroupInfo)) : option JsString :=
  match groupFolder with
  | None | Some [] => None
  | Some groupFolder =>
      let entry :=
        orElse
          (orElse
             (List.find (fun e => bool_decide (folder e.2 = groupFolder)
                                  && isWeb e.1 && is_home e.2) groups)
             (List.find (fun e => bool_decide (folder e.2 = groupFolder)
                                  && isWeb e.1) groups))
          (List.find (fun e => bool_decide (folder e.2 = groupFolder)) groups) in
      match entry with
      | Some ((_ :: _) as jid, _) => Some jid
      | _ => None
      end
  end.

End ChatPage.

(* ===================================================================== *)
(** * Theorems                                                            *)
(* ===================================================================== *)

(** ** Intent analysis *)

Section IntentFacts.
Import Js IntentAnalyzer.
Variable toLowerCase : JsString -> JsString.

Lemma exactMatch_elem (lower : JsString) (kws : list JsString) :
  lower ∈ kws -> exactMatch lower kws = true.
Proof.
  intros Hin. unfold exactMatch. apply existsb_exists.
  exists lower. split; [by apply list_elem_of_In | by apply bool_decide_eq_true].
Qed.

Lemma correction_not_stop (lower : JsString) :
  lower ∈ CORRECTION_KEYWORDS -> exactMatch lower STOP_KEYWORDS = false.
Proof.
  intros Hin. apply list_elem_of_In in Hin. simpl in Hin.
  repeat (destruct Hin as [<- | Hin]; [by vm_compute |]). destruct Hin.
Qed.

(** C10.  A text whose trimmed form is empty or longer than 50 code units is
    classified [continue] whatever it contains; for a trimmed text within the
    limit, a lower-cased form equal to a stop keyword gives [stop] and one
    equal to a correction keyword gives [correction], both decided by the
    exact-match pass, which runs before the substring pass. *)
Theorem analyzeIntent_gate_then_exact (text : JsString) :
  ((length (trim text) = 0 \/ 50 < length (trim text))%nat ->
     analyzeIntent toLowerCase text = continue) /\
  ((0 < length (trim text) <= 50)%nat ->
     (toLowerCase (trim text) ∈ STOP_KEYWORDS ->
        exactMatch (toLowerCase (trim text)) STOP_KEYWORDS = true /\
        analyzeIntent toLowerCase text = stop) /\
     (toLowerCase (trim text) ∈ CORRECTION_KEYWORDS ->
        exactMatch (toLowerCase (trim text)) CORRECTION_KEYWORDS = true /\
        analyzeIntent toLowerCase text = correction)).
Proof.
  unfold analyzeIntent, MAX_SHORT_MESSAGE_LENGTH. split.
  - intros [H0 | H50].
    + by rewrite (bool_decide_eq_true_2 _ H0).
    + rewrite (bool_decide_eq_true_2 _ H50). by rewrite orb_true_r.
  - intros [Hpos Hle].
    rewrite (bool_decide_eq_false_2 (length (trim text) = 0%nat)) by lia.
    rewrite (bool_decide_eq_false_2 (50 < length (trim text))%nat) by lia.
    cbn [orb]. split; intros Hin.
    + rewrite (exactMatch_elem _ _ Hin). done.
    + rewrite (correction_not_stop _ Hin), (exactMatch_elem _ _ Hin). done.
Qed.

End IntentFacts.

(** A message made of a stop keyword in capitals between blanks, and one
    that buries a stop keyword in more than 50 code units. *)
Lemma analyzeIntent_gate_then_exact_witness :
  IntentAnalyzer.analyzeIntent Js.asciiToLowerCase (Js.js " STOP ") = IntentAnalyzer.stop /\
  IntentAnalyzer.analyzeIntent Js.asciiToLowerCase
    (Js.js "stop stop stop stop stop stop stop stop stop stop stop")
  = IntentAnalyzer.continue.
Proof.
  split.
  - apply (analyzeIntent_gate_then_exact Js.asciiToLowerCase (Js.js " STOP ")).
    + vm_compute. lia.
    + apply list_elem_of_In. vm_compute. tauto.
  - apply (analyzeIntent_gate_then_exact Js.asciiToLowerCase).
    right. vm_compute. lia.
Defined.

(** ** Image sniffing *)

Section DetectorFacts.
Import Js ImageDetector.

Lemma detect_known (buffer : Buffer) (m : JsString) :
  detectImageMimeTypeStrict buffer = Some m -> m ∈ KNOWN_MIME_TYPES.
Proof.
  unfold detectImageMimeTypeStrict.
  repeat match goal with
         | |- context [if ?c then _ else _] => destruct c
         end;
    intros [= <-]; apply list_elem_of_In; vm_compute; tauto.
Qed.

(** C9.  A buffer of fewer than 12 bytes is never recognised, and a
    recognised type is one of the seven known image types. *)
Theorem detectImageMimeTypeStrict_short_and_known (buffer : Buffer) :
  ((length buffer < 12)%nat -> detectImageMimeTypeStrict buffer = None) /\
  (forall m, detectImageMimeTypeStrict buffer = Some m -> m ∈ KNOWN_MIME_TYPES).
Proof.
  split.
  - intros Hlen. unfold detectImageMimeTypeStrict.
    by rewrite (bool_decide_eq_true_2 _ Hlen).
  - apply detect_known.
Qed.

End DetectorFacts.

(** The 3-byte JPEG prefix and the 2-byte BMP prefix on their own, and a
    12-byte buffer with the JPEG prefix. *)
Lemma detectImageMimeTypeStrict_short_and_known_witness :
  ImageDetector.detectImageMimeTypeStrict [0xff; 0xd8; 0xff] = None /\
  ImageDetector.detectImageMimeTypeStrict [0x42; 0x4d] = None /\
  Js.js "image/jpeg" ∈ ImageDetector.KNOWN_MIME_TYPES.
Proof.
  split; [| split].
  - apply (detectImageMimeTypeStrict_short_and_known [0xff; 0xd8; 0xff]).
    vm_compute. lia.
  - apply (detectImageMimeTypeStrict_short_and_known [0x42; 0x4d]).
    vm_compute. lia.
  - apply (detectImageMimeTypeStrict_short_and_known
             [0xff; 0xd8; 0xff; 0xe0; 0; 0x10; 0x4a; 0x46; 0x49; 0x46; 0; 1]).
    reflexivity.
Defined.

(** ** Attachment normalisation *)

Section AttachmentFacts.
Import Js ImageDetector MessageAttachments.
Variable toLowerCase : JsString -> JsString.
Variable decodeBase64 : JsString -> Buffer.
Context {S : Type}.

Lemma startsWith_image_truthy (s : JsString) :
  startsWith s (js "image/") = true -> truthy (Some s) = true.
Proof. by destruct s. Qed.

Lemma normalizeImageMimeType_truthy (raw : JsValue) (d : JsString) :
  normalizeImageMimeType toLowerCase raw = Some d -> truthy (Some d) = true.
Proof.
  destruct raw as [| | s |]; simpl; try done.
  destruct (startsWith _ _) eqn:Hsw; [| done].
  intros [= <-]. by apply startsWith_image_truthy.
Qed.

Lemma declaredOf_truthy (input : ImageAttachmentInput) (raw d : JsString) :
  declaredOf toLowerCase input raw = Some d -> truthy (Some d) = true.
Proof.
  unfold declaredOf, jsOr.
  destruct (truthy (normalizeImageMimeType _ (in_mimeType input))) eqn:Ht.
  - intros Hd. by rewrite Hd in Ht.
  - unfold unwrapBase64Payload. destruct (execDataUrl raw) as [[g1 g2] |]; simpl.
    + apply (normalizeImageMimeType_truthy (VString g1)).
    + done.
Qed.

Lemma detected_truthy (base64 t : JsString) :
  detectImageMimeTypeFromBase64Strict decodeBase64 base64 = Some t ->
  truthy (Some t) = true.
Proof.
  unfold detectImageMimeTypeFromBase64Strict. intros Hd.
  apply detect_known, list_elem_of_In in Hd. simpl in Hd.
  repeat (destruct Hd as [<- | Hd]; [done |]). destruct Hd.
Qed.

(** An input is accepted when its [type] is absent or ['image'] and its
    [data] is a non-empty string with a non-empty payload; the answer is then
    the payload with the MIME type that [resolveImageMimeType] picks. *)
Lemma normalizeImageAttachment_accepts (input : ImageAttachmentInput)
    (options : option (@NormalizeOptions S)) (st : S) (raw : JsString) :
  in_type input = VUndefined \/ in_type input = VNull \/
    in_type input = VString (js "image") ->
  in_data input = VString raw -> raw <> [] -> payloadOf toLowerCase raw <> [] ->
  normalizeImageAttachment toLowerCase decodeBase64 input options st =
  let res := resolveImageMimeType (declaredOf toLowerCase input raw)
               (detectedOf toLowerCase decodeBase64 raw) options st in
  (Some {| data := payloadOf toLowerCase raw; mimeType := res.1 |}, res.2).
Proof.
  intros Htype Hdata Hraw Hpay.
  unfold normalizeImageAttachment, declaredOf, detectedOf, payloadOf in *.
  rewrite Hdata.
  assert (Hok : negb match in_type input with
                     | VUndefined | VNull => true
                     | VString s => bool_decide (s = js "image")
                     | VOther => false
                     end = false).
  { destruct Htype as [-> | [-> | ->]]; done. }
  rewrite Hok.
  rewrite (bool_decide_eq_false_2 (length raw = 0%nat)) by (by destruct raw).
  destruct (unwrapBase64Payload toLowerCase raw) as [base64 hinted]; simpl in *.
  rewrite (bool_decide_eq_false_2 (length base64 = 0%nat)) by (by destruct base64).
  by destruct (resolveImageMimeType _ _ options st).
Qed.

(** C8.  An accepted input (type absent or ['image'], a non-empty string as
    data, a non-empty payload) yields an attachment.  With [d] the declared
    MIME type (the normalised [mimeType] field, else the one hinted by the
    data URL) and [t] the detected one: if both exist and differ the result
    carries [t] and the callback receives both; if they agree, or only [d]
    exists, the result carries [d]; if only [t] exists it carries [t]; if
    neither exists it carries [image/jpeg].  The callback is not invoked in
    the last three cases. *)
Theorem normalizeImageAttachment_mime (input : ImageAttachmentInput)
    (options : option (@NormalizeOptions S)) (st : S) (raw : JsString) :
  in_type input = VUndefined \/ in_type input = VNull \/
    in_type input = VString (js "image") ->
  in_data input = VString raw -> raw <> [] -> payloadOf toLowerCase raw <> [] ->
  exists att st',
    normalizeImageAttachment toLowerCase decodeBase64 input options st
      = (Some att, st') /\
    data att = payloadOf toLowerCase raw /\
    let declared := declaredOf toLowerCase input raw in
    let detected := detectedOf toLowerCase decodeBase64 raw in
    (forall d t, declared = Some d -> detected = Some t -> d <> t ->
       mimeType att = t /\
       st' = notifyMismatch options {| declaredMime := d; detectedMime := t |} st /\
       (forall cb, options = Some {| onMimeMismatch := Some cb |} ->
          st' = cb {| declaredMime := d; detectedMime := t |} st)) /\
    (forall d, declared = Some d -> detected = Some d \/ detected = None ->
       mimeType att = d /\ st' = st) /\
    (forall t, declared = None -> detected = Some t ->
       mimeType att = t /\ st' = st) /\
    (declared = None -> detected = None ->
       mimeType att = js "image/jpeg" /\ st' = st).
Proof.
  intros Htype Hdata Hraw Hpay.
  pose proof (normalizeImageAttachment_accepts input options st raw
                Htype Hdata Hraw Hpay) as Hnorm.
  cbn zeta in Hnorm.
  destruct (resolveImageMimeType (declaredOf toLowerCase input raw)
              (detectedOf toLowerCase decodeBase64 raw) options st)
    as [mime st'] eqn:Hres.
  simpl in Hnorm. eexists _, st'. split; [exact Hnorm |]. split; [done |].
  cbn zeta. simpl. unfold resolveImageMimeType in Hres.
  split; [| split; [| split]].
  - intros d t Hd Ht Hne. rewrite Hd, Ht in Hres.
    rewrite (declaredOf_truthy _ _ _ Hd), (detected_truthy _ _ Ht) in Hres.
    rewrite bool_decide_eq_false_2 in Hres by congruence.
    simpl in Hres. injection Hres as <- <-.
    split; [done |]. split; [done |]. by intros cb ->.
  - intros d Hd Hdet. rewrite Hd in Hres.
    rewrite (declaredOf_truthy _ _ _ Hd) in Hres.
    destruct Hdet as [Ht | Ht]; rewrite Ht in Hres.
    + rewrite bool_decide_eq_true_2 in Hres by done.
      rewrite andb_false_r in Hres. by injection Hres as <- <-.
    + simpl in Hres. by injection Hres as <- <-.
  - intros t Hd Ht. rewrite Hd, Ht in Hres.
    rewrite (detected_truthy _ _ Ht) in Hres.
    simpl in Hres. by injection Hres as <- <-.
  - intros Hd Ht. rewrite Hd, Ht in Hres. simpl in Hres. by injection Hres as <- <-.
Qed.

End AttachmentFacts.

(** A PNG-declared data URL whose payload starts with the JPEG magic bytes:
    the detected type wins and the callback records the mismatch. *)
Lemma normalizeImageAttachment_mime_witness :
  let input :=
    {| MessageAttachments.in_type := MessageAttachments.VUndefined;
       MessageAttachments.in_data :=
         MessageAttachments.VString (Js.js "data:image/png;base64,/9j/4AAQSkZJRgABAQ==");
       MessageAttachments.in_mimeType := MessageAttachments.VUndefined |} in
  let options :=
    Some {| MessageAttachments.onMimeMismatch := Some (fun ctx log => log ++ [ctx]) |} in
  let ctx :=
    {| MessageAttachments.declaredMime := Js.js "image/png";
       MessageAttachments.detectedMime := Js.js "image/jpeg" |} in
  exists att log,
    MessageAttachments.normalizeImageAttachment Js.asciiToLowerCase Js.decodeBase64Ascii
      input options [] = (Some att, log) /\
    MessageAttachments.data att = Js.js "/9j/4AAQSkZJRgABAQ==" /\
    MessageAttachments.mimeType att = Js.js "image/jpeg" /\
    log = [ctx].
Proof.
  intros input options ctx.
  destruct (normalizeImageAttachment_mime Js.asciiToLowerCase Js.decodeBase64Ascii
              input options []
              (Js.js "data:image/png;base64,/9j/4AAQSkZJRgABAQ=="))
    as (att & log & Hrun & Hdata & Hdiff & _).
  - by left.
  - reflexivity.
  - discriminate.
  - vm_compute. discriminate.
  - exists att, log. split; [exact Hrun |]. split; [exact Hdata |].
    destruct (Hdiff (Js.js "image/png") (Js.js "image/jpeg")) as (Hmime & _ & Hcb).
    + reflexivity.
    + reflexivity.
    + vm_compute. discriminate.
    + split; [exact Hmime |]. exact (Hcb _ eq_refl).
Defined.

(** ** The daily-summary job *)

Section DailySummaryFacts.
Import DailySummary.
Variable getLocalHour : Z -> Z.




End DailySummaryFacts.



(** ** Session reset *)

Section CommandsFacts.
Import Commands.
Context {Q : Type}.
Variable DATA_DIR : string.
Variable deps : CommandDeps Q.

Ltac unfold_monad :=
  unfold mbind, M_bind, bind, mret, M_ret, ret, emit, modify, gets, throw in *.

(** *** The stop phase *)

Lemma promiseAll_stops (jids : list string) (w : World Q) :
  promiseAll (map (fun j => queueStopGroup deps j true) jids) w =
  (firstRejection (stopAll deps jids (queue w)).1,
   mkWorld (registered w) (stopAll deps jids (queue w)).2 (files w)
     (stored_sessions w) (sessions w) (chats w) (messages w) (broadcasts w)
     (trace w ++ map stopEvent (stopAll deps jids (queue w)).1)).
Proof.
  revert w. induction jids as [| j jids IH]; intros w.
  - simpl. unfold ret, firstRejection. simpl. rewrite app_nil_r. by destruct w.
  - simpl. unfold queueStopGroup at 1.
    destruct (stopGroup deps j true (queue w)) as [r q1] eqn:Hstop.
    rewrite IH. simpl.
    destruct (stopAll deps jids q1) as [rs q2] eqn:Hall. simpl.
    rewrite <- app_assoc. simpl. unfold stopEvent at 2. simpl.
    f_equal. unfold firstRejection. simpl. by destruct r.
Qed.

Lemma firstRejection_ok (outs : list (string * bool)) :
  firstRejection outs = Ok tt <-> forall o, o ∈ outs -> o.2 = true.
Proof.
  unfold firstRejection. induction outs as [| [j r] outs IH]; simpl.
  - split; [| done]. intros _ o Ho. by apply elem_of_nil in Ho.
  - destruct r; simpl.
    + rewrite IH. split.
      * intros Hall o Ho. apply elem_of_cons in Ho as [-> | Ho]; [done | by apply Hall].
      * intros Hall o Ho. apply Hall. by right.
    + split; [done |]. intros Hall. specialize (Hall (j, false)).
      simpl in Hall. discriminate Hall. by left.
Qed.


Lemma stopAll_fst (jids : list string) (q : Q) :
  map fst (stopAll deps jids q).1 = jids.
Proof.
  revert q. induction jids as [| j jids IH]; intros q; simpl; [done |].
  destruct (stopGroup deps j true q) as [r q1].
  specialize (IH q1). destruct (stopAll deps jids q1) as [rs q2]. simpl in *.
  by rewrite IH.
Qed.

(** *** The cleanup phase *)

Lemma filter_ext_elem {A} (P1 P2 : A -> Prop)
    `{!forall x, Decision (P1 x), !forall x, Decision (P2 x)} (l : list A) :
  (forall x, x ∈ l -> P1 x <-> P2 x) -> filter P1 l = filter P2 l.
Proof.
  induction l as [| a l IH]; intros Hext; [done |].
  assert (Htail : filter P1 l = filter P2 l).
  { apply IH. intros x Hx. apply Hext. by right. }
  destruct (decide (P1 a)) as [Ha | Ha].
  - rewrite !filter_cons_True; [by rewrite Htail | | done].
    apply Hext; [by left | done].
  - rewrite !filter_cons_False; [done | | done].
    intros Ha2. apply Ha. apply Hext; [by left | done].
Qed.

Lemma isLocked_true (entries : list DirEntry) (n : string) :
  isLocked entries n = true <-> exists e, e ∈ entries /\ name e = n /\ locked e = true.
Proof.
  unfold isLocked. rewrite existsb_exists. split.
  - intros (e & Hin & He). apply andb_true_iff in He as [Hn Hl].
    apply bool_decide_eq_true in Hn. exists e. by rewrite <- list_elem_of_In in Hin.
  - intros (e & Hin & Hn & Hl). exists e. rewrite <- list_elem_of_In.
    split; [done |]. apply andb_true_iff. split; [by apply bool_decide_eq_true | done].
Qed.

Lemma isLocked_filter_ne (entries : list DirEntry) (n m : string) :
  m <> n ->
  isLocked (filter (fun e => name e <> n) entries) m = isLocked entries m.
Proof.
  intros Hne. apply eq_true_iff_eq. rewrite !isLocked_true. split.
  - intros (e & Hin & Hn & Hl). apply list_elem_of_filter in Hin as [_ Hin]. eauto.
  - intros (e & Hin & Hn & Hl). exists e. split; [| done].
    apply list_elem_of_filter. split; [congruence | done].
Qed.

Lemma filter_all {A} (P : A -> Prop) `{!forall x, Decision (P x)} (l : list A) :
  (forall x, x ∈ l -> P x) -> filter P l = l.
Proof.
  induction l as [| a l IH]; intros Hall; [done |].
  rewrite filter_cons_True by (apply Hall; by left).
  f_equal. apply IH. intros x Hx. apply Hall. by right.
Qed.

Lemma sweep_nil (entries : list DirEntry) : sweep [] entries = entries.
Proof.
  unfold sweep. apply filter_all. intros e _. left. apply not_elem_of_nil.
Qed.

Lemma sweep_skip (n : string) (names : list string) (entries : list DirEntry) :
  n ∈ keep \/ isLocked entries n = true ->
  sweep (n :: names) entries = sweep names entries.
Proof.
  intros Hskip. unfold sweep. apply filter_ext_elem. intros e _.
  rewrite not_elem_of_cons. split.
  - intros [[_ Hn] | Hrest]; [by left | by right].
  - intros [Hn | Hrest]; [| by right].
    destruct (decide (name e = n)) as [Heq | Hne]; [right | by left].
    rewrite Heq. destruct Hskip; [by left | by right].
Qed.

Lemma sweep_remove (n : string) (names : list string) (entries : list DirEntry) :
  n ∉ keep -> isLocked entries n = false ->
  sweep names (filter (fun e => name e <> n) entries) = sweep (n :: names) entries.
Proof.
  intros Hkeep Hlock. unfold sweep. rewrite list_filter_filter.
  apply filter_ext_elem. intros e _. rewrite not_elem_of_cons. split.
  - intros [Hcases Hne]. rewrite isLocked_filter_ne in Hcases by done.
    destruct Hcases as [Hn | Hrest]; [by left | by right].
  - intros Hcases.
    assert (Hne : name e <> n).
    { intros Heq. rewrite Heq in Hcases.
      destruct Hcases as [[Hn _] | [Hk | Hl]]; [done | done | congruence]. }
    split; [| done]. rewrite isLocked_filter_ne by done.
    destruct Hcases as [[_ Hn] | Hrest]; [by left | by right].
Qed.

Lemma sweep_all (entries : list DirEntry) :
  sweep (map name entries) entries = survivors entries.
Proof.
  unfold sweep, survivors. apply filter_ext_elem. intros e He. split.
  - intros [Hn | Hrest]; [| done]. exfalso. apply Hn.
    apply list_elem_of_fmap. by exists e.
  - intros Hrest. by right.
Qed.

Lemma forEach_cons {A} (x : A) (xs : list A) (body : A -> M unit) (w : World Q) :
  forEach (x :: xs) body w =
  match body x w with
  | (Ok _, w1) => forEach xs body w1
  | (Err e, w1) => (Err e, w1)
  end.
Proof. reflexivity. Qed.

(** The loop of [clearSessionFiles] over a list of names. *)
Lemma cleanup_loop (folder dir : string) (names : list string)
    (cur : list DirEntry) (w : World Q) :
  files w !! dir = Some cur ->
  exists evs,
    forEach names (fun entry =>
      if bool_decide (entry ∈ keep) then ret tt
      else tryCatch (rmSync dir entry)
                    (fun _ => emit (EvRemoveFailed folder entry))) w =
    (Ok tt,
     mkWorld (registered w) (queue w) (<[dir := sweep names cur]> (files w))
       (stored_sessions w) (sessions w) (chats w) (messages w) (broadcasts w)
       (trace w ++ evs)) /\
    Forall isArtifactRemoval evs /\
    (forall n, n ∈ names -> n ∉ keep -> isLocked cur n = true ->
               EvRemoveFailed folder n ∈ evs).
Proof.
  set (body := fun entry : string => _).
  revert cur w. induction names as [| n names IH]; intros cur w Hdir.
  - exists []. split; [| split].
    + simpl. unfold ret. rewrite sweep_nil, app_nil_r, insert_id by done.
      by destruct w.
    + constructor.
    + intros n Hn. by apply elem_of_nil in Hn.
  - rewrite forEach_cons. unfold body at 1.
    case_bool_decide as Hkeep.
    + destruct (IH cur w Hdir) as (evs & Hrun & Hall & Hlog).
      exists evs. split; [| split].
      * unfold ret. rewrite Hrun. rewrite sweep_skip by (by left). done.
      * done.
      * intros m Hm Hmk Hml. apply elem_of_cons in Hm as [-> | Hm]; [done |].
        by apply Hlog.
    + unfold tryCatch, rmSync. rewrite Hdir.
      destruct (isLocked cur n) eqn:Hlock; unfold emit, modify.
      * set (w1 := mkWorld (registered w) (queue w) (files w) (stored_sessions w)
                     (sessions w) (chats w) (messages w) (broadcasts w)
                     (trace w ++ [EvRemoveFailed folder n])).
        destruct (IH cur w1 Hdir) as (evs & Hrun & Hall & Hlog).
        exists (EvRemoveFailed folder n :: evs). split; [| split].
        -- simpl. fold w1. rewrite Hrun. simpl.
           rewrite sweep_skip by (by right). by rewrite <- app_assoc.
        -- by constructor.
        -- intros m Hm Hmk Hml. apply elem_of_cons in Hm as [-> | Hm]; [by left |].
           right. by apply Hlog.
      * set (cur' := filter (fun e => name e <> n) cur).
        set (w1 := mkWorld (registered w) (queue w) (<[dir := cur']> (files w))
                     (stored_sessions w) (sessions w) (chats w) (messages w)
                     (broadcasts w) (trace w ++ [EvRemoved dir n])).
        assert (Hdir1 : files w1 !! dir = Some cur') by apply lookup_insert_eq.
        destruct (IH cur' w1 Hdir1) as (evs & Hrun & Hall & Hlog).
        exists (EvRemoved dir n :: evs). split; [| split].
        -- rewrite Hrun. simpl. rewrite insert_insert_eq.
           unfold cur'. rewrite sweep_remove by done. by rewrite <- app_assoc.
        -- by constructor.
        -- intros m Hm Hmk Hml. apply elem_of_cons in Hm as [-> | Hm]; [congruence |].
           right. apply Hlog; [done | done |].
           unfold cur'. rewrite isLocked_filter_ne; [done |]. congruence.
Qed.

Lemma clearSessionFiles_run (folder : string) (w : World Q) :
  exists evs,
    clearSessionFiles DATA_DIR folder w =
    (Ok tt,
     mkWorld (registered w) (queue w) (cleared DATA_DIR folder (files w))
       (stored_sessions w) (sessions w) (chats w) (messages w) (broadcasts w)
       (trace w ++ evs)) /\
    Forall isArtifactRemoval evs /\
    (forall entries n,
       files w !! claudeDirOf DATA_DIR folder = Some entries ->
       n ∈ map name entries -> n ∉ keep -> isLocked entries n = true ->
       EvRemoveFailed folder n ∈ evs) /\
    (files w !! claudeDirOf DATA_DIR folder = None -> evs = []).
Proof.
  unfold clearSessionFiles, cleared.
  unfold mbind, M_bind, bind, existsSync, readdirSync, gets.
  destruct (files w !! claudeDirOf DATA_DIR folder) as [entries |] eqn:Hdir.
  - rewrite bool_decide_eq_true_2 by eauto. simpl.
    destruct (cleanup_loop folder (claudeDirOf DATA_DIR folder) (map name entries)
                entries w Hdir) as (evs & Hrun & Hall & Hlog).
    exists evs. split; [| split; [| split]].
    + rewrite Hdir, Hrun. by rewrite sweep_all.
    + done.
    + intros entries' n [= <-]. apply Hlog.
    + done.
  - rewrite bool_decide_eq_false_2 by (by intros [x Hx]). simpl.
    exists []. split; [| split; [| split]].
    + unfold ret. rewrite app_nil_r. by destruct w.
    + constructor.
    + intros entries n Hsome. discriminate Hsome.
    + done.
Qed.

(** *** The whole reset *)

(** One closed form for every execution of [executeSessionReset]: the stop
    phase, then (if no stop rejected) cleanup, deletion and the marker. *)
Lemma executeSessionReset_run (env : CallEnv) (chatJid folder : string) (w : World Q) :
  let sibs := siblingsOf folder w in
  let outs := (stopAll deps sibs (queue w)).1 in
  let q' := (stopAll deps sibs (queue w)).2 in
  let m := dividerMessage env chatJid in
  exists evs,
    Forall isArtifactRemoval evs /\
    (forall entries n,
       files w !! claudeDirOf DATA_DIR folder = Some entries ->
       n ∈ map name entries -> n ∉ keep -> isLocked entries n = true ->
       EvRemoveFailed folder n ∈ evs) /\
    executeSessionReset DATA_DIR deps env chatJid folder w =
    match firstRejection outs with
    | Err e =>
        (Err e,
         mkWorld (registered w) q' (files w) (stored_sessions w) (sessions w)
           (chats w) (messages w) (broadcasts w)
           (trace w ++ map stopEvent outs))
    | Ok _ =>
        if storeFails env then
          (Err DbError,
           mkWorld (registered w) q' (cleared DATA_DIR folder (files w))
             (delete folder (stored_sessions w)) (delete folder (sessions w))
             (ensured chatJid (chats w)) (messages w) (broadcasts w)
             (trace w ++ map stopEvent outs ++ evs ++
                [EvDeleteSession folder; EvDeleteCached folder; EvEnsureChat chatJid]))
        else
          (Ok tt,
           mkWorld (registered w) q' (cleared DATA_DIR folder (files w))
             (delete folder (stored_sessions w)) (delete folder (sessions w))
             (ensured chatJid (chats w)) (messages w ++ [m])
             (broadcasts w ++ [(chatJid, m)])
             (trace w ++ map stopEvent outs ++ evs ++
                [EvDeleteSession folder; EvDeleteCached folder; EvEnsureChat chatJid;
                 EvStoreMessage m; EvBroadcast chatJid m;
                 EvLogReset chatJid folder sibs]))
    end.
Proof.
  intros sibs outs q' m.
  set (w1 := mkWorld (registered w) q' (files w) (stored_sessions w) (sessions w)
               (chats w) (messages w) (broadcasts w) (trace w ++ map stopEvent outs)).
  destruct (clearSessionFiles_run folder w1) as (evs & Hclear & Hall & Hlog & _).
  exists evs. split; [done |]. split; [exact Hlog |].
  unfold executeSessionReset.
  unfold mbind at 1, M_bind at 1, bind at 1, getJidsByFolder, gets.
  fold (siblingsOf folder w). fold sibs.
  unfold mbind at 1, M_bind at 1, bind at 1.
  rewrite promiseAll_stops. fold sibs outs q' w1.
  destruct (firstRejection outs) as [[] | e]; [| done].
  unfold mbind at 1, M_bind at 1, bind at 1. rewrite Hclear.
  unfold deleteSession, ensureChatExists, storeMessageDirect, broadcast.
  unfold_monad. simpl.
  destruct (storeFails env); simpl; rewrite <- !app_assoc; reflexivity.
Qed.



(** *** Order of events *)

Lemma precedes_split (P R : Event -> Prop) (l1 l2 : list Event) :
  Forall (fun e => ~ R e) l1 -> Forall (fun e => ~ P e) l2 ->
  precedes P R (l1 ++ l2).
Proof.
  intros HR HP i j a b Hi Hj Pa Rb.
  rewrite Forall_forall in HR. rewrite Forall_forall in HP.
  apply lookup_app_Some in Hi. apply lookup_app_Some in Hj.
  destruct Hj as [Hj | [Hlen Hj]].
  { exfalso. apply (HR b); [by eapply list_elem_of_lookup_2 | done]. }
  destruct Hi as [Hi | [_ Hi]].
  - apply lookup_lt_Some in Hi. lia.
  - exfalso. apply (HP a); [by eapply list_elem_of_lookup_2 | done].
Qed.

Lemma precedes_prefix (P R : Event -> Prop) (l1 l2 : list Event) :
  precedes P R (l1 ++ l2) -> precedes P R l1.
Proof.
  intros Hp i j a b Hi Hj. apply (Hp i j a b); by apply lookup_app_l_Some.
Qed.

Lemma Forall_stopEvents (P : Event -> Prop) (outs : list (string * bool)) :
  (forall e, isStop e -> P e) -> Forall P (map stopEvent outs).
Proof.
  intros HP. apply Forall_forall. intros e He.
  apply list_elem_of_fmap in He as (o & -> & _). by apply HP.
Qed.

Ltac forall_events :=
  repeat (constructor; [simpl; tauto |]); constructor.

Lemma resetOrder_full (outs : list (string * bool)) (evs : list Event)
    (chatJid folder : string) (m : NewMessage) (sibs : list string) :
  Forall isArtifactRemoval evs ->
  resetOrder (map stopEvent outs ++ evs ++
                [EvDeleteSession folder; EvDeleteCached folder; EvEnsureChat chatJid;
                 EvStoreMessage m; EvBroadcast chatJid m;
                 EvLogReset chatJid folder sibs]).
Proof.
  intros Hevs.
  assert (Hno : forall P : Event -> Prop,
             (forall e, isArtifactRemoval e -> ~ P e) -> Forall (fun e => ~ P e) evs).
  { intros P HP. eapply Forall_impl; [exact Hevs | exact HP]. }
  assert (Hsplit : forall P R : Event -> Prop,
             (forall e, isStop e -> ~ R e) ->
             (forall e, isArtifactRemoval e -> ~ R e) ->
             ~ R (EvDeleteSession folder) -> ~ R (EvDeleteCached folder) ->
             ~ R (EvEnsureChat chatJid) ->
             ~ P (EvStoreMessage m) -> ~ P (EvBroadcast chatJid m) ->
             ~ P (EvLogReset chatJid folder sibs) ->
             precedes P R
               (map stopEvent outs ++ evs ++
                  [EvDeleteSession folder; EvDeleteCached folder; EvEnsureChat chatJid;
                   EvStoreMessage m; EvBroadcast chatJid m;
                   EvLogReset chatJid folder sibs])).
  { intros P R Hs Hr H1 H2 H3 H4 H5 H6.
    change (precedes P R
              (map stopEvent outs ++ evs ++
                 [EvDeleteSession folder; EvDeleteCached folder; EvEnsureChat chatJid] ++
                 [EvStoreMessage m; EvBroadcast chatJid m;
                  EvLogReset chatJid folder sibs])).
    rewrite 2!app_assoc, <- (app_assoc (map stopEvent outs)).
    apply precedes_split.
    - apply Forall_app. split; [by apply Forall_stopEvents |].
      apply Forall_app. split; [by apply Hno |].
      repeat (constructor; [done |]). constructor.
    - repeat (constructor; [done |]). constructor. }
  unfold resetOrder. split; [| split; [| split; [| split; [| split]]]].
  - apply precedes_split.
    + apply Forall_stopEvents. intros []; simpl; tauto.
    + apply Forall_app. split; [apply Hno; intros []; simpl; tauto | forall_events].
  - apply Hsplit; try (intros []; simpl; tauto); simpl; tauto.
  - apply Hsplit; try (intros []; simpl; tauto); simpl; tauto.
  - apply Hsplit; try (intros []; simpl; tauto); simpl; tauto.
  - apply Hsplit; try (intros []; simpl; tauto); simpl; tauto.
  - change (precedes isMarkerInsert isBroadcast
              (map stopEvent outs ++ evs ++
                 [EvDeleteSession folder; EvDeleteCached folder; EvEnsureChat chatJid;
                  EvStoreMessage m] ++
                 [EvBroadcast chatJid m; EvLogReset chatJid folder sibs])).
    rewrite 2!app_assoc, <- (app_assoc (map stopEvent outs)).
    apply precedes_split.
    + apply Forall_app. split; [apply Forall_stopEvents; intros []; simpl; tauto |].
      apply Forall_app. split; [apply Hno; intros []; simpl; tauto | forall_events].
    + forall_events.
Qed.

Lemma resetOrder_prefix (l1 l2 : list Event) :
  resetOrder (l1 ++ l2) -> resetOrder l1.
Proof.
  unfold resetOrder. intros (H1 & H2 & H3 & H4 & H5 & H6).
  repeat split; by eapply precedes_prefix.
Qed.

(** C2.  The events of any execution of the reset are ordered: every stop of
    a sibling comes before every removal of a session artifact, and every
    removal of an artifact and both deletions of the session come before the
    insertion of the marker and before its broadcast.  A successful reset has
    stopped every sibling, deleted the session and inserted and broadcast the
    marker. *)
Theorem executeSessionReset_order
    (env : CallEnv) (chatJid folder : string) (w : World Q) :
  let r := executeSessionReset DATA_DIR deps env chatJid folder w in
  exists evs,
    trace r.2 = trace w ++ evs /\
    resetOrder evs /\
    (r.1 = Ok tt ->
       (forall j, j ∈ siblingsOf folder w -> EvStopGroup j true true ∈ evs) /\
       EvDeleteSession folder ∈ evs /\ EvDeleteCached folder ∈ evs /\
       EvStoreMessage (dividerMessage env chatJid) ∈ evs /\
       EvBroadcast chatJid (dividerMessage env chatJid) ∈ evs).
Proof.
  intros r.
  destruct (executeSessionReset_run env chatJid folder w) as (evs & Hevs & _ & Hrun).
  fold r in Hrun.
  set (sibs := siblingsOf folder w) in *.
  set (outs := (stopAll deps sibs (queue w)).1) in *.
  set (m := dividerMessage env chatJid) in *.
  pose proof (resetOrder_full outs evs chatJid folder m sibs Hevs) as Hfull.
  destruct (firstRejection outs) as [[] | e] eqn:Hfirst.
  - destruct (storeFails env).
    + eexists. rewrite Hrun. simpl. split; [reflexivity |]. split; [| done].
      change (resetOrder
                (map stopEvent outs ++ evs ++
                   [EvDeleteSession folder; EvDeleteCached folder; EvEnsureChat chatJid] ++
                   [EvStoreMessage m; EvBroadcast chatJid m;
                    EvLogReset chatJid folder sibs])) in Hfull.
      rewrite 2!app_assoc, <- (app_assoc (map stopEvent outs)) in Hfull.
      by apply resetOrder_prefix in Hfull.
    + eexists. rewrite Hrun. simpl. split; [reflexivity |]. split; [done |].
      intros _. split; [| rewrite !elem_of_app, !elem_of_cons; tauto].
      intros j Hj. apply elem_of_app. left.
      pose proof (proj1 (firstRejection_ok outs) Hfirst) as Hall.
      assert (Hjo : j ∈ map fst outs) by (unfold outs; by rewrite stopAll_fst).
      apply list_elem_of_fmap in Hjo as ([j' b] & -> & Ho).
      specialize (Hall _ Ho). simpl in Hall. subst b.
      apply list_elem_of_fmap. by exists (j', true).
  - eexists. rewrite Hrun. simpl. split; [reflexivity |]. split; [| done].
    by apply resetOrder_prefix in Hfull.
Qed.

(** C5 (amended).  A successful reset inserts exactly one system marker
    message, with content [context_reset], into the history of the
    originating chat and of no other chat, and broadcasts that same message
    to that chat. *)
Theorem executeSessionReset_inserts_context_reset
    (env : CallEnv) (chatJid folder : string) (w : World Q) :
  insertsMarker DATA_DIR deps "context_reset" env chatJid folder w.
Proof.
  intros w' Hok.
  destruct (executeSessionReset_run env chatJid folder w) as (evs & _ & _ & Hrun).
  rewrite Hok in Hrun.
  destruct (firstRejection _) as [[] | e]; [| done].
  destruct (storeFails env); [done |].
  injection Hrun as ->.
  exists (dividerMessage env chatJid). unfold history. simpl.
  repeat split; try done.
  - rewrite filter_app. f_equal. by rewrite filter_cons_True.
  - intros other Hother. rewrite filter_app, filter_cons_False by (simpl; congruence).
    by rewrite filter_nil, app_nil_r.
Qed.

(** *** Resetting twice *)









End CommandsFacts.

(** ** The Group Execution Queue *)

Section QueueFacts.
Import GroupQueue.

Lemma entryOf_putEntry_state (k : string) (e : QueueEntry) (q : Queue) :
  state (entryOf k (putEntry k e q)) = state e.
Proof.
  unfold entryOf, putEntry. simpl. destruct (collectable e) eqn:Hc.
  - rewrite lookup_delete_eq. simpl. unfold collectable in Hc.
    apply andb_true_iff in Hc as [Hc _]. apply andb_true_iff in Hc as [Hc _].
    by apply bool_decide_eq_true in Hc.
  - by rewrite lookup_insert_eq.
Qed.

Lemma entryOf_putEntry_owner (k : string) (e : QueueEntry) (q : Queue) :
  ownerHandle (entryOf k (putEntry k e q)) = ownerHandle e.
Proof.
  unfold entryOf, putEntry. simpl. destruct (collectable e) eqn:Hc.
  - rewrite lookup_delete_eq. simpl. unfold collectable in Hc.
    apply andb_true_iff in Hc as [_ Hc]. by apply bool_decide_eq_true in Hc.
  - by rewrite lookup_insert_eq.
Qed.

Lemma entryOf_putEntry_ne (k k' : string) (e : QueueEntry) (q : Queue) :
  k <> k' -> entryOf k' (putEntry k e q) = entryOf k' q.
Proof.
  intros Hne. unfold entryOf, putEntry. simpl. destruct (collectable e).
  - by rewrite lookup_delete_ne.
  - by rewrite lookup_insert_ne.
Qed.

Lemma liveHandles_putEntry (k k' : string) (e : QueueEntry) (q : Queue) :
  liveHandles k' (putEntry k e q) = liveHandles k' q.
Proof. reflexivity. Qed.

Lemma liveHandles_runnerGone (k k' : string) (h : Handle) (q : Queue) :
  liveHandles k' (runnerGone k h q) = filter (fun p => p <> (k, h)) (liveHandles k' q).
Proof.
  unfold liveHandles, runnerGone. simpl. rewrite !list_filter_filter.
  apply list_filter_iff. intros p. tauto.
Qed.

Lemma liveHandles_release (k k' : string) (q : Queue) :
  handlesAgree q ->
  liveHandles k' (release k q) = if decide (k = k') then [] else liveHandles k' q.
Proof.
  intros Hinv. unfold release. pose proof (Hinv k) as Hk.
  destruct (ownerHandle (entryOf k q)) as [h |].
  - rewrite liveHandles_runnerGone. destruct (decide (k = k')) as [<- | Hne].
    + rewrite Hk. by rewrite filter_cons_False, filter_nil by (by intros []).
    + apply filter_all. intros p Hp Heq. subst p.
      apply list_elem_of_filter in Hp as [Hp _]. simpl in Hp. congruence.
  - destruct (decide (k = k')) as [<- | Hne]; done.
Qed.

Lemma entryOf_release (k k' : string) (q : Queue) :
  entryOf k' (release k q) = entryOf k' q.
Proof. unfold release. by destruct (ownerHandle (entryOf k q)). Qed.

(** Writing the entry of [k] over a queue [q1] that agrees with [q] away from
    [k] keeps the invariant, provided the live handles of [k] in [q1] are
    what the new entry owns. *)
Lemma handlesAgree_put (k : string) (e : QueueEntry) (q q1 : Queue) :
  handlesAgree q ->
  (forall k', k <> k' -> liveHandles k' q1 = liveHandles k' q) ->
  (forall k', k <> k' -> entryOf k' q1 = entryOf k' q) ->
  liveHandles k q1 = match ownerHandle e with Some h => [(k, h)] | None => [] end ->
  handlesAgree (putEntry k e q1).
Proof.
  intros Hinv Hlive Hentry Hk k'. rewrite liveHandles_putEntry.
  destruct (decide (k = k')) as [<- | Hne].
  - by rewrite entryOf_putEntry_owner.
  - rewrite entryOf_putEntry_ne, Hlive, Hentry by done. apply Hinv.
Qed.

Lemma handlesAgree_put_same (k : string) (e : QueueEntry) (q : Queue) :
  handlesAgree q -> ownerHandle e = ownerHandle (entryOf k q) ->
  handlesAgree (putEntry k e q).
Proof.
  intros Hinv He. apply (handlesAgree_put k e q q); try done.
  rewrite He. apply Hinv.
Qed.

Lemma handlesAgree_toIdle (now : Z) (k : string) (q : Queue) :
  handlesAgree q -> handlesAgree (toIdle now k q).
Proof.
  intros Hinv. unfold toIdle. apply (handlesAgree_put k _ q); try done.
  - intros k' Hne. rewrite liveHandles_release by done. by rewrite decide_False.
  - intros k' _. apply entryOf_release.
  - rewrite liveHandles_release by done. by rewrite decide_True.
Qed.

Lemma handlesAgree_step (now : Z) (op : Op) (q : Queue) :
  handlesAgree q -> handlesAgree (step now op q).
Proof.
  intros Hinv. destruct op as [k | k | k started | k | k force killed | k | k | k]; simpl.
  - unfold enqueue. destruct (state (entryOf k q)); by apply handlesAgree_put_same.
  - unfold ensureStarted. destruct (state (entryOf k q)); simpl; try done.
    by apply handlesAgree_put_same.
  - unfold dispatch.
    destruct (state (entryOf k q)); try done.
    destruct (ownerHandle (entryOf k q)) as [h |] eqn:Howner; [done |].
    destruct started.
    + simpl. apply (handlesAgree_put k _ q); try done.
      * intros k' Hne. unfold liveHandles. simpl.
        rewrite filter_app, filter_cons_False, filter_nil, app_nil_r by done. done.
      * unfold liveHandles. simpl.
        rewrite filter_app, filter_cons_True, filter_nil by done.
        fold (liveHandles k q). by rewrite (Hinv k), Howner.
    + apply (handlesAgree_put k _ q); try done. simpl.
      by rewrite (Hinv k), Howner.
  - unfold complete. destruct (state (entryOf k q)); try done.
    apply (handlesAgree_put k _ q); try done.
    + intros k' Hne. rewrite liveHandles_release by done. by rewrite decide_False.
    + intros k' _. apply entryOf_release.
    + rewrite liveHandles_release by done. by rewrite decide_True.
  - unfold stopGroup. destruct (state (entryOf k q)); simpl; try done.
    + by apply handlesAgree_put_same.
    + destruct force; [destruct killed |]; simpl; try done.
      * by apply handlesAgree_toIdle.
      * by apply handlesAgree_put_same.
    + destruct force; [destruct killed |]; simpl; try done.
      by apply handlesAgree_toIdle.
  - unfold gracefulExit. destruct (state (entryOf k q)); try done.
    by apply handlesAgree_toIdle.
  - unfold stopTimeout. destruct (state (entryOf k q)); try done.
    by apply handlesAgree_toIdle.
  - unfold crash. destruct (state (entryOf k q)); try done;
      by apply handlesAgree_toIdle.
Qed.

Lemma handlesAgree_reachable (q : Queue) : reachable q -> handlesAgree q.
Proof.
  induction 1 as [| now op q _ IH]; [by intros k | by apply handlesAgree_step].
Qed.

(** The state of a key after an operation on some key. *)
Lemma step_into_running (now : Z) (op : Op) (k : string) (q : Queue) :
  state (entryOf k q) <> RUNNING ->
  state (entryOf k (step now op q)) = RUNNING ->
  exists started, op = OpDispatch k started /\
                  state (entryOf k q) = QUEUED /\ ownerHandle (entryOf k q) = None.
Proof.
  intros Hnot Hrun.
  assert (Hother : forall k0 e q1,
            entryOf k q1 = entryOf k q -> state e <> RUNNING ->
            state (entryOf k (putEntry k0 e q1)) <> RUNNING).
  { intros k0 e q1 Hq1 He. destruct (decide (k0 = k)) as [-> | Hne].
    - by rewrite entryOf_putEntry_state.
    - rewrite entryOf_putEntry_ne by done. by rewrite Hq1. }
  destruct op as [k0 | k0 | k0 started | k0 | k0 force killed | k0 | k0 | k0];
    simpl in Hrun.
  - exfalso. revert Hrun. unfold enqueue.
    destruct (decide (k0 = k)) as [-> | Hne].
    + destruct (state (entryOf k q)) eqn:Hs; rewrite entryOf_putEntry_state; done.
    + destruct (state (entryOf k0 q)); by rewrite entryOf_putEntry_ne.
  - exfalso. revert Hrun. unfold ensureStarted.
    destruct (state (entryOf k0 q)); simpl; try done.
    apply Hother; done.
  - revert Hrun. unfold dispatch.
    destruct (decide (k0 = k)) as [-> | Hne].
    + destruct (state (entryOf k q)) eqn:Hs; try (intros; congruence).
      destruct (ownerHandle (entryOf k q)) eqn:Ho; [intros; congruence |].
      intros _. by exists started.
    + intros Hrun. exfalso. revert Hrun.
      destruct (state (entryOf k0 q)) eqn:Hs; try done.
      destruct (ownerHandle (entryOf k0 q)) eqn:Ho; [done |].
      destruct started; simpl; by rewrite entryOf_putEntry_ne.
  - exfalso. revert Hrun. unfold complete.
    destruct (state (entryOf k0 q)); try done.
    apply Hother; [apply entryOf_release |]. simpl. by case_bool_decide.
  - exfalso. revert Hrun. unfold stopGroup, toIdle.
    destruct (state (entryOf k0 q)) eqn:Hs; simpl; try done.
    + apply Hother; done.
    + destruct force; [destruct killed |]; simpl; try done.
      * apply Hother; [apply entryOf_release | done].
      * apply Hother; done.
    + destruct force; [destruct killed |]; simpl; try done.
      apply Hother; [apply entryOf_release | done].
  - exfalso. revert Hrun. unfold gracefulExit, toIdle.
    destruct (state (entryOf k0 q)); try done.
    apply Hother; [apply entryOf_release | done].
  - exfalso. revert Hrun. unfold stopTimeout, toIdle.
    destruct (state (entryOf k0 q)); try done.
    apply Hother; [apply entryOf_release | done].
  - exfalso. revert Hrun. unfold crash, toIdle.
    destruct (state (entryOf k0 q)); try done;
      (apply Hother; [apply entryOf_release | done]).
Qed.

(** C3.  In every reachable state of the queue, each group key has at most
    one live sandbox handle, namely the one its entry owns; and an operation
    that takes a key into RUNNING is a dispatch from QUEUED that found no
    handle owned, and no live handle, for that key. *)
Theorem queue_single_owner (q : Queue) :
  reachable q ->
  forall k,
    (length (liveHandles k q) <= 1)%nat /\
    liveHandles k q =
      match ownerHandle (entryOf k q) with Some h => [(k, h)] | None => [] end /\
    (forall now op,
       state (entryOf k q) <> RUNNING ->
       state (entryOf k (step now op q)) = RUNNING ->
       ownerHandle (entryOf k q) = None /\ liveHandles k q = [] /\
       length (liveHandles k (step now op q)) = 1%nat).
Proof.
  intros Hreach k.
  pose proof (handlesAgree_reachable q Hreach) as Hinv.
  split; [| split].
  - rewrite (Hinv k). destruct (ownerHandle _); simpl; lia.
  - apply Hinv.
  - intros now op Hnot Hrun.
    destruct (step_into_running now op k q Hnot Hrun) as (started & -> & Hs & Ho).
    split; [done |]. split; [by rewrite (Hinv k), Ho |].
    pose proof (handlesAgree_step now (OpDispatch k started) q Hinv k) as Hafter.
    rewrite Hafter. simpl in Hrun |- *.
    revert Hrun. unfold dispatch. rewrite Hs, Ho.
    destruct started; simpl.
    + by rewrite entryOf_putEntry_owner.
    + by rewrite entryOf_putEntry_state.
Qed.

(** *** The queue honours the contract the reset relies on *)






End QueueFacts.


(** ** The scenario *)

(** Both groups of the scenario were started by the queue. *)
Lemma bothRunning_reachable : GroupQueue.reachable Scenario.bothRunning.
Proof.
  unfold Scenario.bothRunning. repeat apply GroupQueue.reachable_step.
  apply GroupQueue.reachable_empty.
Qed.

(** The home group of the scenario owns its one live handle, and the dispatch
    that started the sibling found none. *)
Lemma queue_single_owner_witness :
  (length (GroupQueue.liveHandles "web:main" Scenario.bothRunning) <= 1)%nat /\
  GroupQueue.liveHandles "web:main" Scenario.bothRunning = [("web:main"%string, 0%nat)].
Proof.
  destruct (queue_single_owner Scenario.bothRunning bothRunning_reachable "web:main")
    as (Hone & Hown & _).
  split; [exact Hone |]. rewrite Hown. reflexivity.
Defined.



(** The events of the reset of the scenario are in the required order and
    include the deletion of the session. *)
Lemma executeSessionReset_order_witness :
  exists evs,
    Commands.trace
      (Commands.executeSessionReset Scenario.DATA_DIR (GroupQueue.asDeps 5 true)
         Scenario.firstCall "web:main" "main" Scenario.world).2 = [] ++ evs /\
    Commands.resetOrder evs /\
    Commands.EvDeleteSession "main" ∈ evs.
Proof.
  destruct (executeSessionReset_order Scenario.DATA_DIR (GroupQueue.asDeps 5 true)
              Scenario.firstCall "web:main" "main" Scenario.world)
    as (evs & Htrace & Horder & Hok).
  exists evs. split; [exact Htrace |]. split; [exact Horder |].
  apply Hok. vm_compute. reflexivity.
Defined.


(** C5, as stated, fails: the content of the marker that the reset of the
    scenario stores is [context_reset], not [context reset]. *)
Lemma marker_content_is_not_context_reset_with_a_space :
  ~ Commands.insertsMarker Scenario.DATA_DIR (GroupQueue.asDeps 5 true)
      "context reset" Scenario.firstCall "web:main" "main" Scenario.world.
Proof.
  intros Hclaim.
  set (run := Commands.executeSessionReset Scenario.DATA_DIR (GroupQueue.asDeps 5 true)
                Scenario.firstCall "web:main" "main" Scenario.world).
  assert (Hrun : run = (Commands.Ok tt, run.2)) by (vm_compute; reflexivity).
  destruct (Hclaim _ Hrun) as (m & Hcontent & _ & _ & Hmsgs & _).
  vm_compute in Hmsgs. injection Hmsgs as <-. discriminate Hcontent.
Qed.

(** The marker of the scenario. *)
Lemma executeSessionReset_inserts_context_reset_witness :
  exists w' m,
    Commands.executeSessionReset Scenario.DATA_DIR (GroupQueue.asDeps 5 true)
      Scenario.firstCall "web:main" "main" Scenario.world = (Commands.Ok tt, w') /\
    Commands.content m = "context_reset"%string /\
    Commands.history "web:main" w' = [m] /\
    Commands.history "feishu:oc_1" w' = [] /\
    Commands.broadcasts w' = [("web:main"%string, m)].
Proof.
  set (run := Commands.executeSessionReset Scenario.DATA_DIR (GroupQueue.asDeps 5 true)
                Scenario.firstCall "web:main" "main" Scenario.world).
  assert (Hrun : run = (Commands.Ok tt, run.2)) by (vm_compute; reflexivity).
  destruct (executeSessionReset_inserts_context_reset Scenario.DATA_DIR
              (GroupQueue.asDeps 5 true) Scenario.firstCall "web:main" "main"
              Scenario.world _ Hrun)
    as (m & Hcontent & _ & _ & _ & Hhist & Hothers & Hbroadcast).
  exists run.2, m. split; [exact Hrun |]. split; [exact Hcontent |].
  split; [exact Hhist |]. split; [| exact Hbroadcast].
  rewrite Hothers by discriminate. reflexivity.
Defined.


(** ** The code on concrete inputs *)

(** A keyword inside a short sentence is found by the substring pass. *)
Example analyzeIntent_substring :
  IntentAnalyzer.analyzeIntent Js.asciiToLowerCase (Js.js "please stop now")
  = IntentAnalyzer.stop.
Proof. reflexivity. Qed.

(** Two ideographs between blanks: an exact match of a correction keyword. *)
Example analyzeIntent_correction :
  IntentAnalyzer.analyzeIntent Js.asciiToLowerCase [0x20; 0x7B49; 0x7B49; 0x0A]%N
  = IntentAnalyzer.correction.
Proof. reflexivity. Qed.

Example analyzeIntent_plain :
  IntentAnalyzer.analyzeIntent Js.asciiToLowerCase (Js.js "what is the weather")
  = IntentAnalyzer.continue.
Proof. reflexivity. Qed.

Example detect_png :
  ImageDetector.detectImageMimeTypeStrict
    [0x89; 0x50; 0x4e; 0x47; 0x0d; 0x0a; 0x1a; 0x0a; 0; 0; 0; 0x0d]
  = Some (Js.js "image/png").
Proof. reflexivity. Qed.

Example detect_webp :
  ImageDetector.detectImageMimeTypeStrict
    [0x52; 0x49; 0x46; 0x46; 0x24; 0; 0; 0; 0x57; 0x45; 0x42; 0x50]
  = Some (Js.js "image/webp").
Proof. reflexivity. Qed.

(** The brand is read through the ASCII decoder, which drops the high bit. *)
Example detect_avif_high_bit :
  ImageDetector.detectImageMimeTypeStrict
    [0; 0; 0; 0x1c; 0xe6; 0x74; 0x79; 0x70; 0x61; 0x76; 0x69; 0x66]
  = Some (Js.js "image/avif").
Proof. reflexivity. Qed.

Example detect_unknown :
  ImageDetector.detectImageMimeTypeStrict [1; 2; 3; 4; 5; 6; 7; 8; 9; 10; 11; 12] = None.
Proof. reflexivity. Qed.

Example execDataUrl_upper_case :
  MessageAttachments.execDataUrl (Js.js "  DATA:image/PNG;Base64,AB CD ")
  = Some (Js.js "image/PNG", Js.js "AB CD ").
Proof. reflexivity. Qed.

Example execDataUrl_with_parameter :
  MessageAttachments.execDataUrl (Js.js "data:image/png;charset=x;base64,ABCD") = None.
Proof. reflexivity. Qed.

(** A bare payload with no declared type and nothing recognisable in it. *)
Example normalize_fallback :
  (MessageAttachments.normalizeImageAttachment (S := unit)
     Js.asciiToLowerCase Js.decodeBase64Ascii
     {| MessageAttachments.in_type := MessageAttachments.VString (Js.js "image");
        MessageAttachments.in_data := MessageAttachments.VString (Js.js "AAAAAAAAAAAAAAAAAAAA");
        MessageAttachments.in_mimeType := MessageAttachments.VOther |}
     None tt).1
  = Some {| MessageAttachments.data := Js.js "AAAAAAAAAAAAAAAAAAAA";
            MessageAttachments.mimeType := Js.js "image/jpeg" |}.
Proof. reflexivity. Qed.

Example normalize_rejects_other_type :
  (MessageAttachments.normalizeImageAttachment (S := unit)
     Js.asciiToLowerCase Js.decodeBase64Ascii
     {| MessageAttachments.in_type := MessageAttachments.VString (Js.js "file");
        MessageAttachments.in_data := MessageAttachments.VString (Js.js "AAAA");
        MessageAttachments.in_mimeType := MessageAttachments.VUndefined |}
     None tt).1
  = None.
Proof. reflexivity. Qed.

(** With a tick every minute from 02:02 UTC the job generates at 02:02 and,
    55 minutes later, at 02:57. *)
Example daily_summary_two_runs :
  DailySummary.generations
    (DailySummary.runTicks (DailySummary.fixedOffsetHour 0)
       (DailySummary.minuteTicks 7320000 56) DailySummary.initial)
  = [7320000; 10620000].
Proof. vm_compute. reflexivity. Qed.

(** The events of the reset of the scenario. *)
Example reset_trace :
  Commands.trace
    (Commands.executeSessionReset Scenario.DATA_DIR (GroupQueue.asDeps 5 true)
       Scenario.firstCall "web:main" "main" Scenario.world).2
  = let m := Commands.dividerMessage Scenario.firstCall "web:main" in
    [ Commands.EvStopGroup "web:main" true true;
      Commands.EvStopGroup "feishu:oc_1" true true;
      Commands.EvRemoved "/app/data/sessions/main/.claude" "3f2a.jsonl";
      Commands.EvRemoved "/app/data/sessions/main/.claude" "projects";
      Commands.EvRemoveFailed "main" "busy.lock";
      Commands.EvDeleteSession "main";
      Commands.EvDeleteCached "main";
      Commands.EvEnsureChat "web:main";
      Commands.EvStoreMessage m;
      Commands.EvBroadcast "web:main" m;
      Commands.EvLogReset "web:main" "main" ["web:main"; "feishu:oc_1"]%string ].
Proof. vm_compute. reflexivity. Qed.

(** When the kill primitive fails, only the two stops happen. *)
Example reset_trace_rejected :
  Commands.trace
    (Commands.executeSessionReset Scenario.DATA_DIR (GroupQueue.asDeps 5 false)
       Scenario.firstCall "web:main" "main" Scenario.world).2
  = [ Commands.EvStopGroup "web:main" true false;
      Commands.EvStopGroup "feishu:oc_1" true false ].
Proof. vm_compute. reflexivity. Qed.

(** The reset of the scenario forces both groups to IDLE and leaves no live
    process. *)
Example reset_stops_both_groups :
  let q := Commands.queue
             (Commands.executeSessionReset Scenario.DATA_DIR (GroupQueue.asDeps 5 true)
                Scenario.firstCall "web:main" "main" Scenario.world).2 in
  GroupQueue.state (GroupQueue.entryOf "web:main" q) = GroupQueue.IDLE /\
  GroupQueue.state (GroupQueue.entryOf "feishu:oc_1" q) = GroupQueue.IDLE /\
  GroupQueue.live q = [].
Proof. vm_compute. repeat split. Qed.

(** An enqueue while RUNNING is coalesced; on completion the group is QUEUED
    again and the next dispatch starts a second execution. *)
Example queue_coalesces :
  let q1 := GroupQueue.step 2 (GroupQueue.OpDispatch "g" true)
              (GroupQueue.step 1 (GroupQueue.OpEnqueue "g") GroupQueue.empty) in
  let q2 := GroupQueue.step 5 (GroupQueue.OpComplete "g")
              (GroupQueue.step 4 (GroupQueue.OpEnqueue "g")
                 (GroupQueue.step 3 (GroupQueue.OpEnqueue "g") q1)) in
  let q3 := GroupQueue.step 6 (GroupQueue.OpDispatch "g" true) q2 in
  GroupQueue.state (GroupQueue.entryOf "g" q1) = GroupQueue.RUNNING /\
  GroupQueue.state (GroupQueue.entryOf "g" q2) = GroupQueue.QUEUED /\
  GroupQueue.live q2 = [] /\
  GroupQueue.state (GroupQueue.entryOf "g" q3) = GroupQueue.RUNNING /\
  GroupQueue.live q3 = [("g"%string, 1%nat)].
Proof. vm_compute. repeat split. Qed.

(* ===================================================================== *)
(** * Further properties of the code                                      *)
(* ===================================================================== *)

(** ** White space at the ends of a string *)

Section TrimFacts.
Import Js.

Local Abbreviation blank := (Forall (fun c : N => isWhiteSpace c = true)).

Lemma trimStart_blank (s : JsString) : blank s -> trimStart s = [].
Proof.
  induction 1 as [| c s Hc _ IH]; simpl; [done |]. by rewrite Hc.
Qed.

Lemma trimStart_blank_app (pre s : JsString) :
  blank pre -> trimStart (pre ++ s) = trimStart s.
Proof.
  induction 1 as [| c pre Hc _ IH]; simpl; [done |]. by rewrite Hc.
Qed.

Lemma trimStart_app (s t : JsString) :
  trimStart s <> [] -> trimStart (s ++ t) = trimStart s ++ t.
Proof.
  induction s as [| c s IH]; simpl; [done |].
  destruct (isWhiteSpace c); [exact IH | done].
Qed.

Lemma trimStart_nil_blank (s : JsString) : trimStart s = [] -> blank s.
Proof.
  induction s as [| c s IH]; simpl; [constructor |].
  destruct (isWhiteSpace c) eqn:Hc; [| done].
  intros Hs. constructor; [done | by apply IH].
Qed.

Lemma blank_rev (s : JsString) : blank s -> blank (rev s).
Proof.
  rewrite !Forall_forall. intros H c Hc. apply H.
  apply list_elem_of_In. apply list_elem_of_In in Hc. by apply in_rev.
Qed.

Lemma trimEnd_blank_app (s post : JsString) :
  blank post -> trimEnd (s ++ post) = trimEnd s.
Proof.
  intros Hpost. unfold trimEnd. rewrite rev_app_distr.
  by rewrite trimStart_blank_app by (by apply blank_rev).
Qed.

Lemma trimEnd_nil : trimEnd [] = [].
Proof. reflexivity. Qed.

(** White space around a string does not survive [trim]. *)
Lemma trim_blank_around (pre s post : JsString) :
  blank pre -> blank post -> trim (pre ++ s ++ post) = trim s.
Proof.
  intros Hpre Hpost. unfold trim. rewrite trimStart_blank_app by done.
  destruct (trimStart s) as [| c s'] eqn:Hs.
  - rewrite trimStart_blank; [done |].
    apply Forall_app. split; [by apply trimStart_nil_blank | done].
  - rewrite trimStart_app by (by rewrite Hs). rewrite Hs.
    by apply trimEnd_blank_app.
Qed.

(** The first code unit of a trimmed string is not white space. *)
Lemma trimStart_head (s : JsString) (c : N) (s' : JsString) :
  trimStart s = c :: s' -> isWhiteSpace c = false.
Proof.
  induction s as [| d s IH]; simpl; [done |].
  destruct (isWhiteSpace d) eqn:Hd; [exact IH |]. by intros [= <- _].
Qed.

Lemma trimStart_fixed (c : N) (s : JsString) :
  isWhiteSpace c = false -> trimStart (c :: s) = c :: s.
Proof. intros Hc. simpl. by rewrite Hc. Qed.

Lemma trimStart_suffix (s : JsString) : exists pre, s = pre ++ trimStart s /\ blank pre.
Proof.
  induction s as [| c s (pre & Hs & Hpre)]; simpl.
  - by exists [].
  - destruct (isWhiteSpace c) eqn:Hc.
    + exists (c :: pre). split; [by rewrite Hs at 1 | by constructor].
    + by exists [].
Qed.

Lemma trimEnd_prefix (s : JsString) : exists post, s = trimEnd s ++ post /\ blank post.
Proof.
  destruct (trimStart_suffix (rev s)) as (pre & Hs & Hpre).
  exists (rev pre). split; [| by apply blank_rev].
  unfold trimEnd. rewrite <- rev_app_distr, <- Hs. by rewrite rev_involutive.
Qed.

(** [trim] removes a blank prefix and a blank suffix and nothing else. *)
Lemma trim_decompose (s : JsString) :
  exists pre post, s = pre ++ trim s ++ post /\ blank pre /\ blank post.
Proof.
  destruct (trimStart_suffix s) as (pre & Hs & Hpre).
  destruct (trimEnd_prefix (trimStart s)) as (post & Ht & Hpost).
  exists pre, post. unfold trim. by rewrite <- Ht.
Qed.

Lemma trim_length (s : JsString) : (length (trim s) <= length s)%nat.
Proof.
  destruct (trim_decompose s) as (pre & post & Hs & _).
  rewrite Hs at 2. rewrite !length_app. lia.
Qed.

Lemma trim_idempotent (s : JsString) : trim (trim s) = trim s.
Proof.
  destruct (trim_decompose s) as (pre & post & Hs & Hpre & Hpost).
  rewrite Hs at 2. by rewrite trim_blank_around.
Qed.

End TrimFacts.

(** ** Intent analysis, continued *)

Section IntentMore.
Import Js IntentAnalyzer.
Variable toLowerCase : JsString -> JsString.

Lemma startsWith_refl (s : JsString) : startsWith s s = true.
Proof. induction s as [| c s IH]; simpl; [done |]. by rewrite bool_decide_eq_true_2. Qed.

Lemma includes_refl (s : JsString) : includes s s = true.
Proof. destruct s; simpl; by rewrite ?bool_decide_eq_true_2, ?startsWith_refl. Qed.

Lemma exactMatch_substringMatch (lower : JsString) (kws : list JsString) :
  exactMatch lower kws = true -> substringMatch lower kws = true.
Proof.
  unfold exactMatch, substringMatch. rewrite !existsb_exists.
  intros (kw & Hin & Heq). apply bool_decide_eq_true in Heq. subst kw.
  exists lower. split; [done | apply includes_refl].
Qed.

Lemma exactMatch_In (lower : JsString) (kws : list JsString) :
  exactMatch lower kws = true -> In lower kws.
Proof.
  unfold exactMatch. rewrite existsb_exists.
  intros (kw & Hin & Heq). apply bool_decide_eq_true in Heq. by subst kw.
Qed.

Lemma correction_holds_no_stop (lower : JsString) :
  In lower CORRECTION_KEYWORDS -> substringMatch lower STOP_KEYWORDS = false.
Proof.
  simpl. intros Hin.
  repeat (destruct Hin as [<- | Hin]; [by vm_compute |]). destruct Hin.
Qed.

(** X1.  The exact-match pass of [analyzeIntent] never changes the answer: a
    text within the length limit is [stop] when its lower-cased trimmed form
    contains a stop keyword, else [correction] when it contains a correction
    keyword, else [continue]. *)
Theorem analyzeIntent_by_containment (text : JsString) :
  analyzeIntent toLowerCase text =
  let trimmed := trim text in
  if bool_decide (length trimmed = 0%nat) || bool_decide (50 < length trimmed)%nat
  then continue
  else if substringMatch (toLowerCase trimmed) STOP_KEYWORDS then stop
  else if substringMatch (toLowerCase trimmed) CORRECTION_KEYWORDS then correction
  else continue.
Proof.
  unfold analyzeIntent, MAX_SHORT_MESSAGE_LENGTH. cbn zeta.
  destruct (_ || _); [done |].
  destruct (exactMatch _ STOP_KEYWORDS) eqn:Hs.
  { by rewrite (exactMatch_substringMatch _ _ Hs). }
  destruct (exactMatch _ CORRECTION_KEYWORDS) eqn:Hc; [| done].
  rewrite (correction_holds_no_stop _ (exactMatch_In _ _ Hc)).
  by rewrite (exactMatch_substringMatch _ _ Hc).
Qed.

(** X2.  White space before and after a text does not change its intent. *)
Theorem analyzeIntent_ignores_outer_blanks (pre text post : JsString) :
  Forall (fun c => isWhiteSpace c = true) pre ->
  Forall (fun c => isWhiteSpace c = true) post ->
  analyzeIntent toLowerCase (pre ++ text ++ post) = analyzeIntent toLowerCase text.
Proof.
  intros Hpre Hpost. unfold analyzeIntent. cbn zeta.
  by rewrite (trim_blank_around pre text post Hpre Hpost).
Qed.

End IntentMore.

(** A line feed, a tab and a no-break space around a stop keyword. *)
Lemma analyzeIntent_ignores_outer_blanks_witness :
  IntentAnalyzer.analyzeIntent Js.asciiToLowerCase
    ([0x0A; 0x09]%N ++ Js.js "Cancel" ++ [0xA0]%N)
  = IntentAnalyzer.analyzeIntent Js.asciiToLowerCase (Js.js "Cancel").
Proof.
  apply (analyzeIntent_ignores_outer_blanks Js.asciiToLowerCase
           [0x0A; 0x09]%N (Js.js "Cancel") [0xA0]%N).
  - repeat constructor.
  - repeat constructor.
Defined.

(** ** Image sniffing, continued *)

Section DetectorMore.
Import Js ImageDetector ImageFallback.

Lemma byteIs_app (buffer rest : Buffer) (i : nat) (v : Z) :
  (i < length buffer)%nat -> byteIs (buffer ++ rest) i v = byteIs buffer i v.
Proof. intros Hi. unfold byteIs, Buffer in *. by rewrite lookup_app_l. Qed.

Lemma toStringAscii_app (buffer rest : Buffer) (start stop : nat) :
  (stop <= length buffer)%nat -> (start <= stop)%nat ->
  toStringAscii (buffer ++ rest) start stop = toStringAscii buffer start stop.
Proof.
  intros Hstop Hstart. unfold toStringAscii. f_equal.
  rewrite drop_app_le by lia. rewrite take_app_le; [done |].
  rewrite length_drop. lia.
Qed.

(** X3.  Only the first twelve bytes matter: appending bytes to a buffer of
    at least twelve bytes does not change what is detected. *)
Theorem detectImageMimeTypeStrict_header_only (buffer rest : Buffer) :
  (12 <= length buffer)%nat ->
  detectImageMimeTypeStrict (buffer ++ rest) = detectImageMimeTypeStrict buffer.
Proof.
  intros Hlen. unfold detectImageMimeTypeStrict.
  rewrite !byteIs_app by lia. rewrite !toStringAscii_app by lia.
  rewrite (bool_decide_eq_false_2 (length (buffer ++ rest) < 12)%nat)
    by (rewrite length_app; lia).
  rewrite (bool_decide_eq_false_2 (length buffer < 12)%nat) by lia.
  rewrite (bool_decide_eq_true_2 (12 <= length (buffer ++ rest))%nat)
    by (rewrite length_app; lia).
  by rewrite (bool_decide_eq_true_2 (12 <= length buffer)%nat) by lia.
Qed.

(** A buffer of at least twelve bytes, taken apart. *)
Lemma buffer_twelve (buffer : Buffer) :
  (12 <= length buffer)%nat ->
  exists b0 b1 b2 b3 b4 b5 b6 b7 b8 b9 b10 b11 rest,
    buffer = b0 :: b1 :: b2 :: b3 :: b4 :: b5 :: b6 :: b7 :: b8 :: b9 :: b10 :: b11 :: rest.
Proof.
  intros Hlen.
  do 12 (destruct buffer as [| ? buffer]; [simpl in Hlen; lia |]).
  by repeat eexists.
Qed.

Ltac split_conditions :=
  repeat match goal with
         | H : _ && _ = true |- _ => apply andb_true_iff in H as [? ?]
         | H : bool_decide (Some _ = Some _) = true |- _ =>
             apply bool_decide_eq_true in H; injection H as ->
         end.

Ltac branches_of H :=
  repeat match type of H with
         | context [if ?c then _ else _] => destruct c eqn:?
         end;
  try (vm_compute in H; discriminate H).

(** X4.  The five formats with a fixed signature are recognised exactly by
    it: a result of PNG, JPEG, GIF, WebP or TIFF means that the buffer has at
    least twelve bytes and starts with that format's magic number (for WebP,
    [RIFF] at 0 and [WEBP] at 8), and every such buffer gets that result. *)
Theorem detectImageMimeTypeStrict_signatures (buffer : Buffer) :
  (detectImageMimeTypeStrict buffer = Some (js "image/png") <->
     (12 <= length buffer)%nat /\ take 8 buffer = PNG_MAGIC) /\
  (detectImageMimeTypeStrict buffer = Some (js "image/jpeg") <->
     (12 <= length buffer)%nat /\ take 3 buffer = JPEG_MAGIC) /\
  (detectImageMimeTypeStrict buffer = Some (js "image/gif") <->
     (12 <= length buffer)%nat /\ take 4 buffer = GIF_MAGIC) /\
  (detectImageMimeTypeStrict buffer = Some (js "image/webp") <->
     (12 <= length buffer)%nat /\ take 4 buffer = RIFF_MAGIC /\
     take 4 (drop 8 buffer) = WEBP_MAGIC) /\
  (detectImageMimeTypeStrict buffer = Some (js "image/tiff") <->
     (12 <= length buffer)%nat /\
     (take 4 buffer = TIFF_LE_MAGIC \/ take 4 buffer = TIFF_BE_MAGIC)).
Proof.
  destruct (decide (length buffer < 12)%nat) as [Hshort | Hlong].
  { unfold detectImageMimeTypeStrict. rewrite (bool_decide_eq_true_2 _ Hshort).
    repeat split; try done; intros [? _]; lia. }
  destruct (buffer_twelve buffer) as
    (b0 & b1 & b2 & b3 & b4 & b5 & b6 & b7 & b8 & b9 & b10 & b11 & rest & ->);
    [lia |].
  assert (Hlen : (12 <= length (b0 :: b1 :: b2 :: b3 :: b4 :: b5 :: b6 :: b7 :: b8
                                  :: b9 :: b10 :: b11 :: rest))%nat) by (simpl; lia).
  unfold detectImageMimeTypeStrict, byteIs, PNG_MAGIC, JPEG_MAGIC, GIF_MAGIC,
    RIFF_MAGIC, WEBP_MAGIC, TIFF_LE_MAGIC, TIFF_BE_MAGIC.
  rewrite (bool_decide_eq_false_2 _ Hlong), !(bool_decide_eq_true_2 _ Hlen).
  cbn [lookup list_lookup take drop].
  split; [| split; [| split; [| split]]]; (split; [intros Hdet | intros [_ Hsig]]).
  - branches_of Hdet. split_conditions. done.
  - injection Hsig as -> -> -> -> -> -> -> ->. reflexivity.
  - branches_of Hdet. split_conditions. done.
  - injection Hsig as -> -> ->. reflexivity.
  - branches_of Hdet. split_conditions. done.
  - injection Hsig as -> -> -> ->. reflexivity.
  - branches_of Hdet. split_conditions. done.
  - destruct Hsig as [Hriff Hwebp].
    injection Hriff as -> -> -> ->. injection Hwebp as -> -> -> ->. reflexivity.
  - branches_of Hdet.
    match goal with H : _ || _ = true |- _ => apply orb_true_iff in H as [H | H] end;
      split_conditions; split; [done | by left | done | by right].
  - destruct Hsig as [Hsig | Hsig]; injection Hsig as -> -> -> ->; reflexivity.
Qed.

(** X5.  The fallback front end answers with what the strict detector found
    and with [image/jpeg] when it found nothing; its answer is always one of
    the seven known image types. *)
Theorem detectImageMimeType_known (buffer : Buffer) :
  detectImageMimeType buffer =
    default (js "image/jpeg") (detectImageMimeTypeStrict buffer) /\
  detectImageMimeType buffer ∈ KNOWN_MIME_TYPES.
Proof.
  unfold detectImageMimeType.
  destruct (detectImageMimeTypeStrict buffer) as [m |] eqn:Hdet; simpl.
  - pose proof (detect_known _ _ Hdet) as Hknown.
    destruct m as [| c m]; [| done].
    apply list_elem_of_In in Hknown. simpl in Hknown.
    repeat (destruct Hknown as [Habs | Hknown]; [discriminate Habs |]). done.
  - split; [done |]. apply list_elem_of_In. vm_compute. tauto.
Qed.

End DetectorMore.

(** A JPEG header followed by more data. *)
Lemma detectImageMimeTypeStrict_header_only_witness :
  ImageDetector.detectImageMimeTypeStrict
    ([0xff; 0xd8; 0xff; 0xe0; 0; 0x10; 0x4a; 0x46; 0x49; 0x46; 0; 1] ++ [1; 2; 3])
  = Some (Js.js "image/jpeg").
Proof.
  rewrite (detectImageMimeTypeStrict_header_only
             [0xff; 0xd8; 0xff; 0xe0; 0; 0x10; 0x4a; 0x46; 0x49; 0x46; 0; 1] [1; 2; 3]).
  - reflexivity.
  - simpl. lia.
Defined.

(** A GIF header is reported as GIF. *)
Lemma detectImageMimeTypeStrict_signatures_witness :
  ImageDetector.detectImageMimeTypeStrict
    [0x47; 0x49; 0x46; 0x38; 0x39; 0x61; 1; 0; 1; 0; 0; 0]
  = Some (Js.js "image/gif").
Proof.
  apply (detectImageMimeTypeStrict_signatures
           [0x47; 0x49; 0x46; 0x38; 0x39; 0x61; 1; 0; 1; 0; 0; 0]).
  split; [simpl; lia | reflexivity].
Defined.

(** ** Attachment normalisation, continued *)

Section AttachmentMore.
Import Js ImageDetector MessageAttachments AttachmentLists.
Variable toLowerCase : JsString -> JsString.
Variable decodeBase64 : JsString -> Buffer.
Context {S : Type}.

Lemma stripWhiteSpace_clean (s : JsString) :
  Forall (fun c => isWhiteSpace c = false) (stripWhiteSpace s).
Proof.
  unfold stripWhiteSpace. apply Forall_forall. intros c Hc.
  by apply list_elem_of_filter in Hc as [Hc _].
Qed.

Lemma payloadOf_clean (raw : JsString) :
  Forall (fun c => isWhiteSpace c = false) (payloadOf toLowerCase raw).
Proof.
  unfold payloadOf, unwrapBase64Payload.
  destruct (execDataUrl raw) as [[g1 g2] |]; simpl; apply stripWhiteSpace_clean.
Qed.

Lemma normalizeImageMimeType_image (raw : JsValue) (d : JsString) :
  normalizeImageMimeType toLowerCase raw = Some d -> startsWith d (js "image/") = true.
Proof.
  destruct raw as [| | s |]; simpl; try done.
  destruct (startsWith _ _) eqn:Hsw; [| done]. by intros [= <-].
Qed.

Lemma declaredOf_image (input : ImageAttachmentInput) (raw d : JsString) :
  declaredOf toLowerCase input raw = Some d -> startsWith d (js "image/") = true.
Proof.
  unfold declaredOf, jsOr.
  destruct (truthy (normalizeImageMimeType _ (in_mimeType input))) eqn:Ht.
  - apply normalizeImageMimeType_image.
  - unfold unwrapBase64Payload. destruct (execDataUrl raw) as [[g1 g2] |]; simpl.
    + apply (normalizeImageMimeType_image (VString g1)).
    + done.
Qed.

Lemma detectedOf_image (raw t : JsString) :
  detectedOf toLowerCase decodeBase64 raw = Some t -> startsWith t (js "image/") = true.
Proof.
  unfold detectedOf, detectImageMimeTypeFromBase64Strict. intros Hd.
  apply detect_known, list_elem_of_In in Hd. simpl in Hd.
  repeat (destruct Hd as [<- | Hd]; [done |]). destruct Hd.
Qed.

Lemma resolveImageMimeType_image (declared detected : option JsString)
    (options : option (@NormalizeOptions S)) (st : S) :
  (forall d, declared = Some d -> startsWith d (js "image/") = true) ->
  (forall t, detected = Some t -> startsWith t (js "image/") = true) ->
  startsWith (resolveImageMimeType declared detected options st).1 (js "image/") = true.
Proof.
  intros Hd Ht. unfold resolveImageMimeType.
  destruct (_ && _) eqn:Hboth; simpl.
  - destruct detected as [t |]; [by apply Ht |].
    by rewrite andb_false_r in Hboth.
  - destruct (truthy declared) eqn:Htd; simpl.
    + destruct declared as [d |]; [by apply Hd | done].
    + destruct (truthy detected) eqn:Htt; simpl; [| done].
      destruct detected as [t |]; [by apply Ht | done].
Qed.

(** What [normalizeImageAttachment] does with any input. *)
Lemma normalizeImageAttachment_cases (input : ImageAttachmentInput)
    (options : option (@NormalizeOptions S)) (st : S) :
  (normalizeImageAttachment toLowerCase decodeBase64 input options st = (None, st) /\
   ~ ((in_type input = VUndefined \/ in_type input = VNull \/
       in_type input = VString (js "image")) /\
      exists raw, in_data input = VString raw /\ raw <> [] /\
                  payloadOf toLowerCase raw <> [])) \/
  (exists raw,
     (in_type input = VUndefined \/ in_type input = VNull \/
      in_type input = VString (js "image")) /\
     in_data input = VString raw /\ raw <> [] /\ payloadOf toLowerCase raw <> [] /\
     normalizeImageAttachment toLowerCase decodeBase64 input options st =
       let res := resolveImageMimeType (declaredOf toLowerCase input raw)
                    (detectedOf toLowerCase decodeBase64 raw) options st in
       (Some {| data := payloadOf toLowerCase raw; mimeType := res.1 |}, res.2)).
Proof.
  assert (Hright : forall raw,
            in_type input = VUndefined \/ in_type input = VNull \/
              in_type input = VString (js "image") ->
            in_data input = VString raw -> raw <> [] ->
            payloadOf toLowerCase raw <> [] ->
            exists raw0,
              (in_type input = VUndefined \/ in_type input = VNull \/
               in_type input = VString (js "image")) /\
              in_data input = VString raw0 /\ raw0 <> [] /\
              payloadOf toLowerCase raw0 <> [] /\
              normalizeImageAttachment toLowerCase decodeBase64 input options st =
                let res := resolveImageMimeType (declaredOf toLowerCase input raw0)
                             (detectedOf toLowerCase decodeBase64 raw0) options st in
                (Some {| data := payloadOf toLowerCase raw0; mimeType := res.1 |}, res.2)).
  { intros raw Htype Hdata Hraw Hpay. exists raw. repeat (split; [done |]).
    by apply normalizeImageAttachment_accepts. }
  destruct (in_data input) as [| | raw |] eqn:Hdata.
  1, 2, 4: left; split;
    [ unfold normalizeImageAttachment; rewrite Hdata; by destruct (negb _)
    | intros [_ (r & Hr & _)]; discriminate Hr ].
  destruct (decide (raw = [])) as [-> | Hraw].
  { left. split.
    - unfold normalizeImageAttachment. rewrite Hdata. by destruct (negb _).
    - intros [_ (r & [= <-] & Hne & _)]. done. }
  destruct (decide (payloadOf toLowerCase raw = [])) as [Hpay | Hpay].
  { left. split.
    - unfold normalizeImageAttachment, payloadOf in *. rewrite Hdata.
      destruct (negb _); [done |].
      rewrite (bool_decide_eq_false_2 (length raw = 0%nat)) by (by destruct raw).
      destruct (unwrapBase64Payload toLowerCase raw) as [base64 hinted].
      simpl in Hpay. by subst base64.
    - intros [_ (r & [= <-] & _ & Hne)]. done. }
  destruct (in_type input) as [| | ty |] eqn:Hty.
  - right. apply (Hright raw); tauto.
  - right. apply (Hright raw); tauto.
  - destruct (decide (ty = js "image")) as [-> | Hne].
    + right. apply (Hright raw); tauto.
    + left. split.
      * unfold normalizeImageAttachment. rewrite Hty.
        by rewrite bool_decide_eq_false_2.
      * intros [[Ht | [Ht | Ht]] _]; congruence.
  - left. split.
    + unfold normalizeImageAttachment. by rewrite Hty.
    + intros [[Ht | [Ht | Ht]] _]; congruence.
Qed.

Lemma normalizeImageAttachment_wellFormed (input : ImageAttachmentInput)
    (options : option (@NormalizeOptions S)) (st : S) (att : NormalizedImageAttachment) :
  (normalizeImageAttachment toLowerCase decodeBase64 input options st).1 = Some att ->
  wellFormed att.
Proof.
  destruct (normalizeImageAttachment_cases input options st)
    as [[Hnone Hnot] | (raw & Htype & Hdata & Hraw & Hpay & Hsome)].
  - by rewrite Hnone.
  - rewrite Hsome. cbn zeta. simpl. intros [= <-]. unfold wellFormed. simpl.
    split; [done |]. split; [apply payloadOf_clean |].
    apply resolveImageMimeType_image.
    + apply declaredOf_image.
    + apply detectedOf_image.
Qed.

(** X6.  [normalizeImageAttachment] answers [null] exactly on the inputs it
    does not accept (a [type] that is present and not ['image'], a [data]
    that is not a non-empty string, or an empty payload), and then it does
    not call the callback; every attachment it does return has a non-empty
    payload without white space and a MIME type that starts with
    [image/]. *)
Theorem normalizeImageAttachment_total (input : ImageAttachmentInput)
    (options : option (@NormalizeOptions S)) (st : S) :
  let accepted :=
    (in_type input = VUndefined \/ in_type input = VNull \/
     in_type input = VString (js "image")) /\
    exists raw, in_data input = VString raw /\ raw <> [] /\
                payloadOf toLowerCase raw <> [] in
  let res := normalizeImageAttachment toLowerCase decodeBase64 input options st in
  (res.1 = None <-> ~ accepted) /\
  (res.1 = None -> res.2 = st) /\
  (forall att, res.1 = Some att -> wellFormed att).
Proof.
  cbn zeta.
  destruct (normalizeImageAttachment_cases input options st)
    as [[Hnone Hnot] | (raw & Htype & Hdata & Hraw & Hpay & Hsome)].
  - rewrite Hnone. simpl. split; [| split]; try done.
  - rewrite Hsome. cbn zeta. simpl. split; [| split].
    + split; [done |]. intros Hnot. exfalso. apply Hnot. split; [done |]. by exists raw.
    + done.
    + intros att Hatt.
      apply (normalizeImageAttachment_wellFormed input options st).
      by rewrite Hsome.
Qed.

Lemma normalizeImageAttachment_result_st (input : ImageAttachmentInput)
    (options : option (@NormalizeOptions S)) (st st0 : S) :
  (normalizeImageAttachment toLowerCase decodeBase64 input options st).1 =
  (normalizeImageAttachment toLowerCase decodeBase64 input None st0).1.
Proof.
  destruct (normalizeImageAttachment_cases input options st)
    as [[Hnone Hnot] | (raw & Htype & Hdata & Hraw & Hpay & Hsome)].
  - destruct (normalizeImageAttachment_cases input None st0)
      as [[Hnone' _] | (raw & Htype & Hdata & Hraw & Hpay & _)].
    + by rewrite Hnone, Hnone'.
    + exfalso. apply Hnot. split; [done |]. by exists raw.
  - rewrite Hsome.
    rewrite (normalizeImageAttachment_accepts toLowerCase decodeBase64 input None st0 raw)
      by done.
    cbn zeta. simpl. do 2 f_equal. unfold resolveImageMimeType.
    destruct (truthy (declaredOf toLowerCase input raw)
              && truthy (detectedOf toLowerCase decodeBase64 raw)
              && negb (bool_decide (declaredOf toLowerCase input raw
                                    = detectedOf toLowerCase decodeBase64 raw)));
      [done |].
    destruct (truthy (declaredOf toLowerCase input raw)); [done |].
    by destruct (truthy (detectedOf toLowerCase decodeBase64 raw)).
Qed.

(** X7.  [normalizeImageAttachments] answers the empty list when its argument
    is not an array; otherwise it normalises the object items one by one
    and keeps, in order, the attachments of those that are accepted: the
    callback has no influence on which attachments come out.  So the result
    is never longer than the array and holds only well-formed
    attachments. *)
Theorem normalizeImageAttachments_keeps_accepted (inputs : Inputs)
    (options : option (@NormalizeOptions S)) (st : S) :
  let outs := (normalizeImageAttachments toLowerCase decodeBase64 inputs options st).1 in
  (inputs = NotAnArray -> outs = []) /\
  (forall items, inputs = ArrayOf items ->
     outs = omap (fun item =>
                    match item with
                    | ItemObject input =>
                        (normalizeImageAttachment toLowerCase decodeBase64
                           input None st).1
                    | ItemOther => None
                    end) items /\
     (length outs <= length items)%nat) /\
  Forall wellFormed outs.
Proof.
  cbn zeta.
  assert (Hitems : forall items st1,
            (normalizeItems toLowerCase decodeBase64 items options st1).1 =
            omap (fun item =>
                    match item with
                    | ItemObject input =>
                        (normalizeImageAttachment toLowerCase decodeBase64
                           input None st).1
                    | ItemOther => None
                    end) items).
  { induction items as [| [input |] items IH]; intros st1; simpl; [done | | apply IH].
    rewrite <- (normalizeImageAttachment_result_st input options st1 st).
    destruct (normalizeImageAttachment _ _ input options st1) as [out st2].
    specialize (IH st2).
    destruct (normalizeItems _ _ items options st2) as [outs st3]. simpl in *.
    rewrite IH. by destruct out. }
  assert (Hlen : forall (f : Item -> option NormalizedImageAttachment) items,
            (length (omap f items) <= length items)%nat).
  { intros f items. induction items as [| item items IH]; [simpl; lia |].
    change (omap f (item :: items))
      with (match f item with Some y => y :: omap f items | None => omap f items end).
    destruct (f item); simpl length; lia. }
  destruct inputs as [| items]; simpl.
  - split; [done |]. split; [done | constructor].
  - split; [done |]. split.
    + intros items' [= <-]. rewrite Hitems. split; [done | apply Hlen].
    + rewrite Hitems. apply Forall_forall. intros att Hatt.
      apply list_elem_of_omap in Hatt as ([input |] & _ & Hatt); [| done].
      by apply (normalizeImageAttachment_wellFormed input None st).
Qed.

(** X8.  The images handed to the agent are either [undefined], when there
    are no attachments, or a list as long as the attachments, never empty,
    that carries their payloads and MIME types in the same order. *)
Theorem toAgentImages_nonempty (attachments : option (list NormalizedImageAttachment)) :
  (toAgentImages attachments = None <-> attachments = None \/ attachments = Some []) /\
  (forall images, toAgentImages attachments = Some images ->
     images <> [] /\
     exists atts, attachments = Some atts /\
       map img_data images = map data atts /\
       map img_mimeType images = map mimeType atts).
Proof.
  destruct attachments as [[| att atts] |]; simpl.
  - split; [split; [by right | done] | done].
  - split; [split; [done | by intros [? | ?]] |].
    intros images [= <-]. split; [done |]. exists (att :: atts).
    split; [done |]. simpl. rewrite !map_map. done.
  - split; [split; [by left | done] | done].
Qed.

Lemma span_app_stop (p : N -> bool) (s t : JsString) (c : N) :
  Forall (fun x => p x = true) s -> p c = false ->
  span p (s ++ c :: t) = (s, c :: t).
Proof.
  intros Hs Hc. induction Hs as [| x s Hx _ IH]; simpl.
  - by rewrite Hc.
  - by rewrite Hx, IH.
Qed.

(** X9.  A data URL is taken apart into what it was built from: for a media
    type without [;] and [,], [unwrapBase64Payload] of
    [data:<type>;base64,<payload>] gives the payload without its white space
    and the normalised media type as the hint. *)
Theorem unwrapBase64Payload_dataUrl (mime payload : JsString) :
  mime <> [] -> Forall (fun c => c <> 0x3B%N /\ c <> 0x2C%N) mime ->
  unwrapBase64Payload toLowerCase (dataUrl mime payload) =
  (stripWhiteSpace payload, normalizeImageMimeType toLowerCase (VString mime)).
Proof.
  intros Hne Hmime. unfold unwrapBase64Payload, execDataUrl, dataUrl.
  change (js "data:") with [100; 97; 116; 97; 58]%N.
  change (js ";base64,") with [59; 98; 97; 115; 101; 54; 52; 44]%N.
  cbn [app trimStart]. change (isWhiteSpace 100) with false. cbv iota.
  change (startsWithIgnoreCase _ [100; 97; 116; 97; 58]%N) with true. cbv iota.
  cbn [drop]. rewrite drop_0.
  rewrite span_app_stop; [| | done].
  - destruct mime as [| c mime]; [done |].
    change (startsWithIgnoreCase _ [59; 98; 97; 115; 101; 54; 52; 44]%N) with true.
    done.
  - eapply Forall_impl; [exact Hmime |]. simpl. intros c [H1 H2].
    unfold notSeparator. by rewrite !bool_decide_eq_false_2.
Qed.

End AttachmentMore.

(** A media type in capitals and a payload broken over two lines. *)
Lemma unwrapBase64Payload_dataUrl_witness :
  MessageAttachments.unwrapBase64Payload Js.asciiToLowerCase
    (AttachmentLists.dataUrl (Js.js "IMAGE/PNG") (Js.js "iVBO" ++ [0x0A]%N ++ Js.js "Rw0K"))
  = (Js.js "iVBORw0K", Some (Js.js "image/png")).
Proof.
  rewrite (unwrapBase64Payload_dataUrl Js.asciiToLowerCase (Js.js "IMAGE/PNG")).
  - reflexivity.
  - discriminate.
  - repeat constructor; discriminate.
Defined.

(** An array with a data URL, a number and an object without data. *)
Lemma normalizeImageAttachments_keeps_accepted_witness :
  let items :=
    [ AttachmentLists.ItemObject
        {| MessageAttachments.in_type := MessageAttachments.VUndefined;
           MessageAttachments.in_data :=
             MessageAttachments.VString (Js.js "data:image/gif;base64,R0lGODlhAQABAAAAACw=");
           MessageAttachments.in_mimeType := MessageAttachments.VUndefined |};
      AttachmentLists.ItemOther;
      AttachmentLists.ItemObject
        {| MessageAttachments.in_type := MessageAttachments.VUndefined;
           MessageAttachments.in_data := MessageAttachments.VUndefined;
           MessageAttachments.in_mimeType := MessageAttachments.VUndefined |} ] in
  (AttachmentLists.normalizeImageAttachments (S := unit) Js.asciiToLowerCase
     Js.decodeBase64Ascii (AttachmentLists.ArrayOf items) None tt).1
  = [ {| MessageAttachments.data := Js.js "R0lGODlhAQABAAAAACw=";
         MessageAttachments.mimeType := Js.js "image/gif" |} ].
Proof.
  intros items.
  destruct (normalizeImageAttachments_keeps_accepted Js.asciiToLowerCase
              Js.decodeBase64Ascii (AttachmentLists.ArrayOf items) None tt)
    as (_ & Harray & _).
  destruct (Harray items eq_refl) as [Houts _].
  rewrite Houts. reflexivity.
Defined.

(** The attachment of the previous example, handed to the agent. *)
Lemma toAgentImages_nonempty_witness :
  let atts := [ {| MessageAttachments.data := Js.js "R0lGODlhAQABAAAAACw=";
                   MessageAttachments.mimeType := Js.js "image/gif" |} ] in
  exists images,
    AttachmentLists.toAgentImages (Some atts) = Some images /\ images <> [].
Proof.
  intros atts. eexists. split; [reflexivity |].
  apply (toAgentImages_nonempty (Some atts)). reflexivity.
Defined.

(** The data URL of a GIF is accepted and well formed. *)
Lemma normalizeImageAttachment_total_witness :
  let input :=
    {| MessageAttachments.in_type := MessageAttachments.VString (Js.js "image");
       MessageAttachments.in_data :=
         MessageAttachments.VString (Js.js "data:image/gif;base64,R0lGODlhAQABAAAAACw=");
       MessageAttachments.in_mimeType := MessageAttachments.VNull |} in
  exists att,
    (MessageAttachments.normalizeImageAttachment (S := unit) Js.asciiToLowerCase
       Js.decodeBase64Ascii input None tt).1 = Some att /\
    AttachmentLists.wellFormed att.
Proof.
  intros input. eexists. split; [reflexivity |].
  apply (normalizeImageAttachment_total Js.asciiToLowerCase Js.decodeBase64Ascii
           input None tt).
  reflexivity.
Defined.

(** ** Session reset, continued *)

Section CommandsMore.
Import Commands.
Context {Q : Type}.
Variable DATA_DIR : string.
Variable deps : CommandDeps Q.







(** X12.  However a reset ends, it never removes an entry named
    [settings.json] from the session directory, and it creates nothing: what
    the directory holds afterwards it held before, and a directory that did
    not exist still does not. *)
Theorem executeSessionReset_preserves_settings
    (env : CallEnv) (chatJid folder : string) (w : World Q) :
  let r := executeSessionReset DATA_DIR deps env chatJid folder w in
  let dir := claudeDirOf DATA_DIR folder in
  (files w !! dir = None -> files r.2 !! dir = None) /\
  (forall entries, files w !! dir = Some entries ->
     exists entries',
       files r.2 !! dir = Some entries' /\
       (forall e, e ∈ entries' -> e ∈ entries) /\
       (forall e, e ∈ entries -> name e = "settings.json"%string -> e ∈ entries')).
Proof.
  intros r dir.
  destruct (executeSessionReset_run DATA_DIR deps env chatJid folder w)
    as (evs & _ & _ & Hrun).
  fold r in Hrun.
  assert (Hcleared :
            (files w !! dir = None -> cleared DATA_DIR folder (files w) !! dir = None) /\
            (forall entries, files w !! dir = Some entries ->
               exists entries',
                 cleared DATA_DIR folder (files w) !! dir = Some entries' /\
                 (forall e, e ∈ entries' -> e ∈ entries) /\
                 (forall e, e ∈ entries -> name e = "settings.json"%string ->
                            e ∈ entries'))).
  { unfold cleared. fold dir. split.
    - intros Hnone. by rewrite Hnone.
    - intros entries Hsome. rewrite Hsome, lookup_insert_eq.
      exists (survivors entries). split; [done |]. unfold survivors. split.
      + intros e He. by apply list_elem_of_filter in He as [_ He].
      + intros e He Hname. apply list_elem_of_filter. split; [| done].
        left. rewrite Hname. apply list_elem_of_here. }
  destruct (firstRejection _) as [[] | e].
  - destruct (storeFails env); rewrite Hrun; simpl; exact Hcleared.
  - rewrite Hrun. simpl. split; [done |].
    intros entries Hsome. exists entries. by split.
Qed.




End CommandsMore.



(** The settings of the scenario survive the reset. *)
Lemma executeSessionReset_preserves_settings_witness :
  let r := Commands.executeSessionReset Scenario.DATA_DIR (GroupQueue.asDeps 5 true)
             Scenario.firstCall "web:main" "main" Scenario.world in
  exists entries',
    (Commands.files r.2 !! "/app/data/sessions/main/.claude"%string) = Some entries' /\
    ({| Commands.name := "settings.json"; Commands.locked := false |} ∈ entries').
Proof.
  intros r.
  destruct (executeSessionReset_preserves_settings Scenario.DATA_DIR
              (GroupQueue.asDeps 5 true) Scenario.firstCall "web:main" "main"
              Scenario.world) as [_ Hsome].
  destruct (Hsome Scenario.sessionDir eq_refl) as (entries' & Hdir & _ & Hkeep).
  exists entries'. split; [exact Hdir |].
  apply Hkeep; [apply list_elem_of_here | reflexivity].
Defined.

(** ** The daily summary, continued *)

Section DailySummaryMore.
Import DailySummary.
Variable getLocalHour : Z -> Z.

Lemma runTicks_cons (now : Z) (ticks : list Z) (st : State) :
  runTicks getLocalHour (now :: ticks) st =
  runTicks getLocalHour ticks (runDailySummaryIfNeeded getLocalHour now st).
Proof. reflexivity. Qed.

Lemma minuteTicks_succ (start : Z) (n : nat) :
  minuteTicks start (S n) = start :: minuteTicks (start + 60000) n.
Proof.
  unfold minuteTicks. simpl. f_equal; [lia |].
  rewrite <- seq_shift, map_map. apply map_ext. intros i. lia.
Qed.

Lemma runTicks_appends (ticks : list Z) (st : State) :
  exists new,
    generations (runTicks getLocalHour ticks st) = generations st ++ new /\
    sublist new ticks.
Proof.
  revert st. induction ticks as [| now ticks IH]; intros st.
  - exists []. split; [by rewrite app_nil_r | constructor].
  - rewrite runTicks_cons.
    destruct (IH (runDailySummaryIfNeeded getLocalHour now st)) as (new & Hgen & Hsub).
    rewrite Hgen. unfold runDailySummaryIfNeeded.
    destruct (_ <? _); [exists new; split; [done | by constructor] |].
    destruct (_ || _); simpl.
    + exists new. split; [done | by constructor].
    + exists (now :: new). split; [by rewrite <- app_assoc | by constructor].
Qed.

(** X14.  Running the job over a sequence of ticks only appends to the
    record of generations, and what it appends are instants of those ticks,
    in their order: the generation runs at ticks and nowhere else. *)
Theorem runTicks_generates_at_ticks (ticks : list Z) (st : State) :
  exists new,
    generations (runTicks getLocalHour ticks st) = generations st ++ new /\
    sublist new ticks.
Proof.
  revert st. induction ticks as [| now ticks IH]; intros st.
  - exists []. split; [by rewrite app_nil_r | constructor].
  - rewrite runTicks_cons.
    destruct (IH (runDailySummaryIfNeeded getLocalHour now st)) as (new & Hgen & Hsub).
    rewrite Hgen. unfold runDailySummaryIfNeeded.
    destruct (_ <? _); [exists new; split; [done | by constructor] |].
    destruct (_ || _); simpl.
    + exists new. split; [done | by constructor].
    + exists (now :: new). split; [by rewrite <- app_assoc | by constructor].
Qed.

(** With a tick every minute and every tick inside the window, a generation
    happens as soon as the throttle allows. *)
Lemma window_ticks_generate (n : nat) (start : Z) (st : State) :
  (forall k, (k < S n)%nat -> getLocalHour (start + 60000 * Z.of_nat k) = 2) ->
  CHECK_INTERVAL_MS <= start + 60000 * Z.of_nat n - lastCheckTime st ->
  exists t rest,
    generations (runTicks getLocalHour (minuteTicks start (S n)) st)
    = generations st ++ t :: rest.
Proof.
  revert start st. induction n as [| n IH]; intros start st Hwin Hfar.
  - rewrite minuteTicks_succ, runTicks_cons.
    destruct (runTicks_appends (minuteTicks (start + 60000) 0)
                (runDailySummaryIfNeeded getLocalHour start st)) as (new & Hgen & _).
    rewrite Hgen. unfold runDailySummaryIfNeeded.
    rewrite (proj2 (Z.ltb_ge _ _)) by lia.
    pose proof (Hwin 0%nat ltac:(lia)) as Hh. rewrite Z.mul_0_r, Z.add_0_r in Hh.
    rewrite Hh. simpl. exists start, new. by rewrite <- app_assoc.
  - rewrite minuteTicks_succ, runTicks_cons.
    pose proof (Hwin 0%nat ltac:(lia)) as Hh. rewrite Z.mul_0_r, Z.add_0_r in Hh.
    unfold runDailySummaryIfNeeded at 1.
    destruct (Z.ltb_spec (start - lastCheckTime st) CHECK_INTERVAL_MS) as [Hlt | Hge].
    + apply IH.
      * intros k Hk. replace (start + 60000 + 60000 * Z.of_nat k)
          with (start + 60000 * Z.of_nat (S k)) by lia. apply Hwin. lia.
      * lia.
    + rewrite Hh. change ((2 <? 2) || (3 <=? 2)) with false. cbv iota.
      destruct (runTicks_appends (minuteTicks (start + 60000) (S n))
                  {| lastCheckTime := start; generations := generations st ++ [start] |})
        as (new & Hgen & _).
      rewrite Hgen. simpl. exists start, new. by rewrite <- app_assoc.
Qed.

(** X15.  The throttle of 55 minutes never makes the job miss its window:
    if the last check is not in the future and 56 consecutive one-minute
    ticks (55 minutes) all fall in local hour 2, the generation runs at one
    of them. *)
Theorem runDailySummary_runs_in_window (start : Z) (st : State) :
  lastCheckTime st <= start ->
  (forall k, (k < 56)%nat -> getLocalHour (start + 60000 * Z.of_nat k) = 2) ->
  exists t rest,
    generations (runTicks getLocalHour (minuteTicks start 56) st)
    = generations st ++ t :: rest /\
    t ∈ minuteTicks start 56.
Proof.
  intros Hpast Hwin.
  destruct (window_ticks_generate 55 start st Hwin) as (t & rest & Hgen).
  { unfold CHECK_INTERVAL_MS. lia. }
  exists t, rest. split; [exact Hgen |].
  destruct (runTicks_appends (minuteTicks start 56) st) as (new & Hgen' & Hsub).
  rewrite Hgen in Hgen'. apply app_inv_head in Hgen'. subst new.
  eapply elem_of_sublist; [apply list_elem_of_here | exact Hsub].
Qed.

End DailySummaryMore.

(** A check at 01:30 UTC delays the next one to 02:25, inside the window. *)
Lemma runDailySummary_runs_in_window_witness :
  exists t rest,
    DailySummary.generations
      (DailySummary.runTicks (DailySummary.fixedOffsetHour 0)
         (DailySummary.minuteTicks 7200000 56)
         {| DailySummary.lastCheckTime := 5400000; DailySummary.generations := [] |})
    = [] ++ t :: rest /\
    t ∈ DailySummary.minuteTicks 7200000 56.
Proof.
  apply (runDailySummary_runs_in_window (DailySummary.fixedOffsetHour 0) 7200000
           {| DailySummary.lastCheckTime := 5400000; DailySummary.generations := [] |}).
  - simpl. lia.
  - intros k Hk. do 56 (destruct k as [| k]; [reflexivity |]). lia.
Defined.

(** ** The text of a summary *)

Section SummaryTextFacts.
Import Js DailySummaryText.

Lemma replaceLineFeeds_no_lf (text : JsString) : 0x0A%N ∉ replaceLineFeeds text.
Proof.
  unfold replaceLineFeeds. intros Hin. apply list_elem_of_fmap in Hin as (c & Hc & _).
  by case_bool_decide.
Qed.

Lemma trim_elem (c : N) (s : JsString) : c ∈ trim s -> c ∈ s.
Proof.
  intros Hc. destruct (trim_decompose s) as (pre & post & Hs & _).
  rewrite Hs. rewrite !elem_of_app. tauto.
Qed.

(** X16.  [truncate] yields one line of bounded length: at most [maxLen]
    code units plus the three of the ellipsis, none of them a line feed, and
    no white space at the front.  A text that is already a trimmed single
    line within the limit comes back unchanged. *)
Theorem truncate_bounded (text : JsString) (maxLen : nat) :
  (length (truncate text maxLen) <= maxLen + 3)%nat /\
  (0x0A%N ∉ truncate text maxLen) /\
  (forall c rest, truncate text maxLen = c :: rest -> isWhiteSpace c = false) /\
  ((0x0A%N ∉ text) -> trim text = text -> (length text <= maxLen)%nat ->
   truncate text maxLen = text).
Proof.
  unfold truncate. cbn zeta.
  assert (Hnolf : 0x0A%N ∉ trim (replaceLineFeeds text)).
  { intros Hin. by apply trim_elem, replaceLineFeeds_no_lf in Hin. }
  assert (Hhead : forall c rest, trim (replaceLineFeeds text) = c :: rest ->
                                 isWhiteSpace c = false).
  { intros c rest Heq. unfold trim in Heq.
    destruct (trimEnd_prefix (trimStart (replaceLineFeeds text))) as (post & Hpost & _).
    rewrite Heq in Hpost. simpl in Hpost. by apply trimStart_head in Hpost. }
  split; [| split; [| split]].
  - case_bool_decide; [lia |]. rewrite length_app, length_take. simpl. lia.
  - case_bool_decide; [done |]. intros Hin. apply elem_of_app in Hin as [Hin | Hin].
    + apply Hnolf. apply elem_of_take in Hin as (i & Hi & _).
      by eapply list_elem_of_lookup_2.
    + vm_compute in Hin. repeat (apply elem_of_cons in Hin as [Hin | Hin]; [done |]).
      by apply elem_of_nil in Hin.
  - intros c rest. case_bool_decide as Hlen.
    + intros Heq. by eapply Hhead.
    + destruct maxLen as [| m]; [simpl; by intros [= <- _] |].
      destruct (trim (replaceLineFeeds text)) as [| d s] eqn:Ht; [simpl in Hlen; lia |].
      simpl. intros [= <- _]. by eapply Hhead.
  - intros Hlf Htrim Hlen.
    assert (Hsame : replaceLineFeeds text = text).
    { unfold replaceLineFeeds. rewrite <- (map_id text) at 2.
      apply map_ext_in. intros c Hc. case_bool_decide as Heq; [| done].
      subst c. by apply list_elem_of_In in Hc. }
    rewrite Hsame, Htrim. by rewrite bool_decide_eq_true_2.
Qed.



End SummaryTextFacts.

(** A short line with blanks around it comes back trimmed; here, unchanged. *)
Lemma truncate_bounded_witness :
  DailySummaryText.truncate (Js.js "fix the build") 200 = Js.js "fix the build".
Proof.
  apply (truncate_bounded (Js.js "fix the build") 200).
  - intros Hin. vm_compute in Hin.
    repeat (apply elem_of_cons in Hin as [Hin | Hin]; [discriminate Hin |]).
    by apply elem_of_nil in Hin.
  - reflexivity.
  - simpl. lia.
Defined.


(** ** Access rules *)

Section AccessFacts.
Import WebContext.
Variable getGroupMemberRole : string -> string -> option string.
Variable getJidsByFolder : string -> list string.
Variable getRegisteredGroup : string -> option RegisteredGroup.

(** X18.  The permissions are nested: whoever may delete a group may manage
    its members and conversely, whoever may manage its members may modify
    it, and whoever may modify it may access it, whatever the database
    holds.  Nobody may delete a home group or manage its members. *)
Theorem permissions_nested (user : User) (group : RegisteredGroup) :
  canDeleteGroup user group = canManageGroupMembers user group /\
  (canManageGroupMembers user group = true -> canModifyGroup user group = true) /\
  (canModifyGroup user group = true ->
     canAccessGroup getGroupMemberRole getJidsByFolder getRegisteredGroup user group
     = true) /\
  (is_home group = true ->
     canDeleteGroup user group = false /\ canManageGroupMembers user group = false).
Proof.
  unfold canDeleteGroup, canManageGroupMembers, canModifyGroup, canAccessGroup.
  destruct (is_home group); simpl.
  - repeat split; done.
  - destruct (String.prefix "web:" (jid group)); simpl;
      destruct (createdBy group user); simpl; repeat split; try done.
    by destruct (bool_decide (folder group = "main"%string)).
Qed.

Lemma ownerFromSiblings_true (user : User) (group : RegisteredGroup)
    (siblingJids : list string) :
  ownerFromSiblings getRegisteredGroup user group siblingJids = true ->
  exists j sibling,
    j ∈ siblingJids /\ j <> jid group /\ getRegisteredGroup j = Some sibling /\
    is_home sibling = true /\ created_by sibling = Some (id user).
Proof.
  induction siblingJids as [| j rest IH]; simpl; [done |].
  assert (Hrest : ownerFromSiblings getRegisteredGroup user group rest = true ->
                  exists j0 sibling,
                    j0 ∈ j :: rest /\ j0 <> jid group /\
                    getRegisteredGroup j0 = Some sibling /\
                    is_home sibling = true /\ created_by sibling = Some (id user)).
  { intros Hr. destruct (IH Hr) as (j0 & sibling & Hin & Hrest).
    exists j0, sibling. split; [by right | done]. }
  case_bool_decide as Hself; [exact Hrest |].
  destruct (getRegisteredGroup j) as [sibling |] eqn:Hsib; [| exact Hrest].
  destruct (is_home sibling && present (created_by sibling)) eqn:Hhome; [| exact Hrest].
  intros Hown. apply andb_true_iff in Hhome as [Hhome _].
  apply bool_decide_eq_true in Hown.
  exists j, sibling. split; [by left | done].
Qed.

(** X19.  [canAccessGroup] never lets a stranger in.  Access to a home group
    is the creator's alone.  Access to any other group is granted only to
    its creator, to a member of its folder, or, for an IM group without a
    recorded creator, to the creator of a home group that shares its
    folder. *)
Theorem canAccessGroup_sound (user : User) (group : RegisteredGroup) :
  canAccessGroup getGroupMemberRole getJidsByFolder getRegisteredGroup user group = true ->
  created_by group = Some (id user) \/
  (is_home group = false /\
   (is_Some (getGroupMemberRole (folder group) (id user)) \/
    (String.prefix "web:" (jid group) = false /\ present (created_by group) = false /\
     exists j sibling,
       j ∈ getJidsByFolder (folder group) /\ j <> jid group /\
       getRegisteredGroup j = Some sibling /\
       is_home sibling = true /\ created_by sibling = Some (id user)))).
Proof.
  unfold canAccessGroup, createdBy.
  destruct (is_home group) eqn:Hhome.
  { intros Hown. left. by apply bool_decide_eq_true in Hown. }
  destruct (decide (created_by group = Some (id user))) as [Hown | Hown]; [by left |].
  rewrite (bool_decide_eq_false_2 _ Hown).
  destruct (decide (is_Some (getGroupMemberRole (folder group) (id user))))
    as [Hmember | Hmember].
  { intros _. right. split; [done |]. by left. }
  rewrite (bool_decide_eq_false_2 _ Hmember).
  destruct (String.prefix "web:" (jid group)) eqn:Hweb; simpl.
  { by destruct (bool_decide (folder group = "main"%string)). }
  destruct (present (created_by group)) eqn:Hpresent; [done |].
  intros Hsib. right. split; [done |]. right. repeat split; try done.
  by apply ownerFromSiblings_true.
Qed.

(** X20.  Membership of the folder opens every group that is not a home
    group, and it opens no home group: the creator apart, nobody reaches a
    home group. *)
Theorem canAccessGroup_membership (user : User) (group : RegisteredGroup) :
  (is_home group = false ->
   is_Some (getGroupMemberRole (folder group) (id user)) ->
   canAccessGroup getGroupMemberRole getJidsByFolder getRegisteredGroup user group
   = true) /\
  (is_home group = true ->
   canAccessGroup getGroupMemberRole getJidsByFolder getRegisteredGroup user group
   = bool_decide (created_by group = Some (id user))).
Proof.
  unfold canAccessGroup, createdBy. split.
  - intros Hhome Hmember. rewrite Hhome, (bool_decide_eq_true_2 _ Hmember).
    destruct (String.prefix "web:" (jid group)); simpl;
      destruct (bool_decide (created_by group = Some (id user))); try done.
    all: by destruct (bool_decide (folder group = "main"%string)).
  - intros Hhome. by rewrite Hhome.
Qed.

End AccessFacts.

(** A legacy Feishu group without creator, in the folder of ann's home
    group: ann gets in through her home group, bob does not. *)
Lemma canAccessGroup_sound_witness :
  let home := {| WebContext.jid := "web:ann"; WebContext.folder := "ann";
                 WebContext.is_home := true; WebContext.created_by := Some "u-ann"%string;
                 WebContext.executionMode := None |} in
  let im := {| WebContext.jid := "feishu:oc_9"; WebContext.folder := "ann";
               WebContext.is_home := false; WebContext.created_by := None;
               WebContext.executionMode := None |} in
  let roles := fun (_ _ : string) => @None string in
  let jids := fun (_ : string) => ["feishu:oc_9"; "web:ann"]%string in
  let lookup := fun j : string =>
                  if bool_decide (j = "web:ann"%string) then Some home else Some im in
  WebContext.canAccessGroup roles jids lookup
    {| WebContext.id := "u-ann"; WebContext.role := "member" |} im = true /\
  WebContext.canAccessGroup roles jids lookup
    {| WebContext.id := "u-bob"; WebContext.role := "member" |} im = false /\
  exists j, j ∈ jids "ann"%string /\ j <> "feishu:oc_9"%string.
Proof.
  intros home im roles jids lookup.
  split; [reflexivity |]. split; [reflexivity |].
  destruct (canAccessGroup_sound roles jids lookup
              {| WebContext.id := "u-ann"; WebContext.role := "member" |} im eq_refl)
    as [Habs | (_ & [Habs | (_ & _ & j & sibling & Hin & Hne & _)])].
  - discriminate Habs.
  - destruct Habs as [x Hx]. discriminate Hx.
  - by exists j.
Defined.

(** The creator of a web group may delete it, hence modify and access it. *)
Lemma permissions_nested_witness :
  let g := {| WebContext.jid := "web:w1"; WebContext.folder := "w1";
              WebContext.is_home := false; WebContext.created_by := Some "u-ann"%string;
              WebContext.executionMode := None |} in
  let u := {| WebContext.id := "u-ann"; WebContext.role := "member" |} in
  WebContext.canModifyGroup u g = true /\
  WebContext.canAccessGroup (fun _ _ => None) (fun _ => []) (fun _ => None) u g = true.
Proof.
  intros g u.
  destruct (permissions_nested (fun _ _ => None) (fun _ => []) (fun _ => None) u g)
    as (_ & Hmanage & Hmodify & _).
  split; [by apply Hmanage |]. apply Hmodify. by apply Hmanage.
Defined.

(** A member of a shared workspace reaches it; nobody but ann reaches her
    home group. *)
Lemma canAccessGroup_membership_witness :
  let g := {| WebContext.jid := "web:w1"; WebContext.folder := "w1";
              WebContext.is_home := false; WebContext.created_by := Some "u-ann"%string;
              WebContext.executionMode := None |} in
  let u := {| WebContext.id := "u-bob"; WebContext.role := "member" |} in
  WebContext.canAccessGroup (fun _ _ => Some "member"%string) (fun _ => [])
    (fun _ => None) u g = true.
Proof.
  intros g u.
  apply (canAccessGroup_membership (fun _ _ => Some "member"%string) (fun _ => [])
           (fun _ => None) u g).
  - reflexivity.
  - by eexists.
Defined.

(** ** Cookies *)

Section CookieFacts.
Import Js WebContext.

Local Abbreviation blank := (Forall (fun c : N => isWhiteSpace c = true)).

Lemma split_nonempty (sep : N) (s : JsString) : split sep s <> [].
Proof.
  induction s as [| c s IH]; simpl; [done |].
  case_bool_decide; [done |]. by destruct (split sep s).
Qed.

Lemma split_pieces (sep : N) (s piece : JsString) :
  piece ∈ split sep s -> (sep ∉ piece) /\ (forall c, c ∈ piece -> c ∈ s).
Proof.
  revert piece. induction s as [| c s IH]; simpl; intros piece Hin.
  - apply list_elem_of_singleton in Hin. subst piece.
    split; [apply not_elem_of_nil |]. intros c Hc. by apply elem_of_nil in Hc.
  - case_bool_decide as Hsep.
    + apply elem_of_cons in Hin as [-> | Hin].
      * split; [apply not_elem_of_nil |]. intros d Hd. by apply elem_of_nil in Hd.
      * destruct (IH _ Hin) as [Hno Hsub]. split; [done |].
        intros d Hd. right. by apply Hsub.
    + destruct (split sep s) as [| p ps] eqn:Hsplit.
      { exfalso. by apply (split_nonempty sep s). }
      apply elem_of_cons in Hin as [-> | Hin].
      * destruct (IH p) as [Hno Hsub]; [by left |]. split.
        -- rewrite not_elem_of_cons. split; [congruence | done].
        -- intros d Hd. apply elem_of_cons in Hd as [-> | Hd]; [by left |].
           right. by apply Hsub.
      * destruct (IH piece) as [Hno Hsub]; [by right |]. split; [done |].
        intros d Hd. right. by apply Hsub.
Qed.

Lemma indexOf_take (c : N) (s : JsString) (i : nat) :
  indexOf c s = Some i -> (c ∉ take i s) /\ s !! i = Some c.
Proof.
  revert i. induction s as [| d s IH]; simpl; intros i; [done |].
  case_bool_decide as Hd.
  - intros [= <-]. subst d. split; [apply not_elem_of_nil | done].
  - destruct (indexOf c s) as [j |]; simpl; [| done].
    intros [= <-]. destruct (IH j eq_refl) as [Hno Hat]. split; [| done].
    simpl. rewrite not_elem_of_cons. split; [congruence | done].
Qed.

Lemma elem_of_drop_elem (c : N) (n : nat) (s : JsString) : c ∈ drop n s -> c ∈ s.
Proof.
  intros Hc. rewrite <- (take_drop n s). apply elem_of_app. by right.
Qed.

Lemma elem_of_take_elem (c : N) (n : nat) (s : JsString) : c ∈ take n s -> c ∈ s.
Proof.
  intros Hc. rewrite <- (take_drop n s). apply elem_of_app. by left.
Qed.

Local Abbreviation parsedPair :=
  (fun k v : JsString => cookieName k /\ cookieValue v).

Lemma parseCookiePiece_parsed (cookies : gmap JsString JsString) (cookie : JsString) :
  (0x3B%N ∉ cookie) ->
  map_Forall parsedPair cookies ->
  map_Forall parsedPair (parseCookiePiece cookies cookie).
Proof.
  intros Hsemi Hall. unfold parseCookiePiece. cbn zeta.
  destruct (indexOf 61 (trim cookie)) as [i |] eqn:Hidx; [| done].
  destruct (trim (take i (trim cookie))) as [| c key] eqn:Hkey; [done |].
  rewrite <- Hkey. unfold setProperty. case_bool_decide as Hproto; [done |].
  apply map_Forall_insert_2; [| done].
  destruct (indexOf_take _ _ _ Hidx) as [Hnoeq _].
  unfold cookieName, cookieValue, tidy. rewrite !trim_idempotent.
  repeat split; try done.
  - by rewrite Hkey.
  - intros Hin. by apply Hnoeq, trim_elem.
  - intros Hin. by apply Hsemi, trim_elem, elem_of_take_elem with i, trim_elem.
  - intros Hin. by apply Hsemi, trim_elem, elem_of_drop_elem with (S i), trim_elem.
Qed.

(** X21.  Every cookie that [parseCookie] returns has a name that is not
    empty, is not [__proto__] and holds neither [=] nor [;], and a value
    without [;]; name and value carry no white space at their ends. *)
Theorem parseCookie_clean (cookieHeader : option JsString) (k v : JsString) :
  parseCookie cookieHeader !! k = Some v ->
  (k <> [] /\ trim k = k /\ (0x3D%N ∉ k) /\ (0x3B%N ∉ k) /\ k <> js "__proto__") /\
  (trim v = v /\ (0x3B%N ∉ v)).
Proof.
  assert (Hfold : forall pieces cookies,
            Forall (fun piece => 0x3B%N ∉ piece) pieces ->
            map_Forall parsedPair cookies ->
            map_Forall parsedPair (fold_left parseCookiePiece pieces cookies)).
  { induction pieces as [| piece pieces IH]; intros cookies Hpieces Hall; [done |].
    simpl. apply Forall_cons in Hpieces as [Hpiece Hpieces].
    apply IH; [done |]. by apply parseCookiePiece_parsed. }
  intros Hlookup.
  assert (Hall : map_Forall parsedPair (parseCookie cookieHeader)).
  { unfold parseCookie. destruct cookieHeader as [[| c header] |];
      try apply map_Forall_empty.
    apply Hfold; [| apply map_Forall_empty].
    apply Forall_forall. intros piece Hpiece. by apply split_pieces in Hpiece as [? _]. }
  exact (Hall k v Hlookup).
Qed.

(** *** From a header back to the cookies *)

Lemma split_none (sep : N) (s : JsString) : (sep ∉ s) -> split sep s = [s].
Proof.
  induction s as [| c s IH]; simpl; [done |].
  rewrite not_elem_of_cons. intros [Hc Hs].
  rewrite bool_decide_eq_false_2 by congruence. by rewrite IH.
Qed.

Lemma split_app (sep : N) (a b : JsString) :
  (sep ∉ a) -> split sep (a ++ sep :: b) = a :: split sep b.
Proof.
  induction a as [| c a IH]; simpl.
  - intros _. by rewrite bool_decide_eq_true_2.
  - rewrite not_elem_of_cons. intros [Hc Ha].
    rewrite bool_decide_eq_false_2 by congruence. by rewrite IH.
Qed.

Lemma split_cons_other (sep c : N) (s : JsString) :
  c <> sep ->
  split sep (c :: s) =
  match split sep s with p :: ps => (c :: p) :: ps | [] => [[c]] end.
Proof. intros Hc. simpl. by rewrite bool_decide_eq_false_2. Qed.

Lemma pairText_no_semicolon (kv : JsString * JsString) :
  cookieName kv.1 -> cookieValue kv.2 -> 0x3B%N ∉ pairText kv.
Proof.
  intros (_ & _ & _ & Hk & _) [_ Hv]. unfold pairText.
  rewrite elem_of_app, elem_of_cons. intros [Hin | [Hin | Hin]]; done.
Qed.

Lemma cookieHeaderOf_cons (kv kv' : JsString * JsString)
    (rest : list (JsString * JsString)) :
  cookieHeaderOf (kv :: kv' :: rest) =
  pairText kv ++ 0x3B%N :: 0x20%N :: cookieHeaderOf (kv' :: rest).
Proof. destruct kv as [k v]. unfold pairText. simpl. by rewrite <- app_assoc. Qed.

Lemma split_cookieHeaderOf (kv : JsString * JsString)
    (rest : list (JsString * JsString)) :
  Forall (fun kv => cookieName kv.1 /\ cookieValue kv.2) (kv :: rest) ->
  split 0x3B (cookieHeaderOf (kv :: rest)) =
  pairText kv :: map (fun kv => 0x20%N :: pairText kv) rest.
Proof.
  revert kv. induction rest as [| kv' rest IH]; intros kv Hall.
  - apply Forall_cons in Hall as [[Hk Hv] _].
    destruct kv as [k v]. simpl. apply split_none.
    by apply (pairText_no_semicolon (k, v)).
  - apply Forall_cons in Hall as [[Hk Hv] Hall].
    rewrite cookieHeaderOf_cons, split_app by (by apply pairText_no_semicolon).
    rewrite split_cons_other by done. by rewrite (IH kv' Hall).
Qed.

Lemma tidy_ends (s : JsString) :
  tidy s -> trimStart s = s /\ trimEnd s = s.
Proof.
  unfold tidy, trim. intros Htidy.
  destruct (trimStart_suffix s) as (pre & Hs & _).
  destruct (trimEnd_prefix (trimStart s)) as (post & Ht & _).
  assert (Hlen : length pre = 0%nat /\ length post = 0%nat).
  { apply (f_equal length) in Hs, Ht. rewrite length_app in Hs, Ht.
    rewrite Htidy in Ht. lia. }
  destruct Hlen as [Hpre Hpost].
  destruct pre; [| done]. destruct post; [| done]. simpl in Hs.
  rewrite app_nil_r in Ht. split; [done |]. rewrite Hs at 1. by rewrite Htidy.
Qed.

Lemma trimEnd_app_tidy (x v : JsString) :
  v <> [] -> trimEnd v = v -> trimEnd (x ++ v) = x ++ v.
Proof.
  intros Hv Hend. unfold trimEnd in *. rewrite rev_app_distr.
  assert (Hrev : trimStart (rev v) = rev v).
  { rewrite <- Hend at 2. by rewrite rev_involutive. }
  rewrite trimStart_app.
  - by rewrite Hrev, <- rev_app_distr, rev_involutive.
  - rewrite Hrev. intros Hnil. apply Hv.
    rewrite <- (rev_involutive v). by rewrite Hnil.
Qed.

Lemma trim_pairText (pre : JsString) (kv : JsString * JsString) :
  blank pre -> cookieName kv.1 -> cookieValue kv.2 ->
  trim (pre ++ pairText kv) = pairText kv.
Proof.
  intros Hpre (Hne & Hk & _) [Hv _]. destruct kv as [k v]. simpl in *.
  rewrite <- (app_nil_r (pairText (k, v))) at 1.
  rewrite trim_blank_around by (done || constructor).
  unfold pairText, trim. simpl.
  destruct (tidy_ends k Hk) as [Hkstart _]. destruct (tidy_ends v Hv) as [_ Hvend].
  destruct k as [| c k]; [done |].
  assert (Hc : isWhiteSpace c = false) by (by eapply trimStart_head).
  simpl. rewrite Hc.
  change (c :: k ++ 61%N :: v) with ((c :: k) ++ 61%N :: v).
  destruct v as [| d v].
  - by apply trimEnd_app_tidy.
  - rewrite (cons_middle 61%N (c :: k) (d :: v)), app_assoc.
    by apply trimEnd_app_tidy.
Qed.

Lemma indexOf_app (c : N) (a b : JsString) :
  (c ∉ a) -> indexOf c (a ++ c :: b) = Some (length a).
Proof.
  induction a as [| d a IH]; simpl.
  - intros _. by rewrite bool_decide_eq_true_2.
  - rewrite not_elem_of_cons. intros [Hd Ha].
    rewrite bool_decide_eq_false_2 by congruence. by rewrite IH.
Qed.

Lemma parseCookiePiece_pair (pre : JsString) (kv : JsString * JsString)
    (cookies : gmap JsString JsString) :
  blank pre -> cookieName kv.1 -> cookieValue kv.2 ->
  parseCookiePiece cookies (pre ++ pairText kv) = <[kv.1 := kv.2]> cookies.
Proof.
  intros Hpre Hk Hv. unfold parseCookiePiece. cbn zeta.
  rewrite trim_pairText by done.
  destruct Hk as (Hne & Hktidy & Hnoeq & _ & Hproto). destruct Hv as [Hvtidy _].
  destruct kv as [k v]. unfold pairText. simpl in *.
  rewrite indexOf_app by done.
  rewrite take_app_length.
  change (k ++ 61%N :: v) with (k ++ [61%N] ++ v).
  rewrite app_assoc, drop_app_length'
    by (rewrite length_app; simpl; lia).
  unfold tidy in *. rewrite Hktidy, Hvtidy.
  destruct k as [| c k]; [done |].
  unfold setProperty. by rewrite bool_decide_eq_false_2.
Qed.

(** X22.  Parsing undoes the writing of a header: for cookies whose names
    and values are well formed, [parseCookie] of their [Cookie] header gives
    back each name with its value, a later cookie replacing an earlier one
    of the same name. *)
Theorem parseCookie_cookieHeaderOf (cookies : list (JsString * JsString)) :
  Forall (fun kv => cookieName kv.1 /\ cookieValue kv.2) cookies ->
  parseCookie (Some (cookieHeaderOf cookies)) =
  fold_left (fun parsed kv => <[kv.1 := kv.2]> parsed) cookies ∅.
Proof.
  intros Hall. destruct cookies as [| kv rest]; [done |].
  assert (Hparse : parseCookie (Some (cookieHeaderOf (kv :: rest))) =
                   fold_left parseCookiePiece
                     (split 0x3B (cookieHeaderOf (kv :: rest))) ∅).
  { unfold parseCookie. by destruct (cookieHeaderOf (kv :: rest)). }
  rewrite Hparse, split_cookieHeaderOf by done. clear Hparse.
  apply Forall_cons in Hall as [[Hk Hv] Hall]. simpl.
  rewrite (parseCookiePiece_pair [] kv ∅) by (done || constructor).
  generalize (<[kv.1 := kv.2]> (∅ : gmap JsString JsString)).
  induction rest as [| kv' rest IH]; intros parsed; [done |].
  apply Forall_cons in Hall as [[Hk' Hv'] Hall]. simpl.
  change (32%N :: pairText kv') with ([32%N] ++ pairText kv').
  rewrite parseCookiePiece_pair by (done || by repeat constructor).
  by apply IH.
Qed.

End CookieFacts.

(** A header with a padded pair, a pair without name and a stray word. *)
Lemma parseCookie_clean_witness :
  let header := Js.js "sid = abc ; =x; junk; theme=dark" in
  WebContext.parseCookie (Some header) !! Js.js "sid" = Some (Js.js "abc") /\
  Js.trim (Js.js "sid") = Js.js "sid" /\ Js.trim (Js.js "abc") = Js.js "abc".
Proof.
  intros header.
  assert (Hlookup : WebContext.parseCookie (Some header) !! Js.js "sid"
                    = Some (Js.js "abc")) by (by vm_compute).
  split; [exact Hlookup |].
  destruct (parseCookie_clean (Some header) (Js.js "sid") (Js.js "abc") Hlookup)
    as [(_ & Hk & _) [Hv _]].
  by split.
Defined.

(** Two cookies, the value of the second holding an equals sign. *)
Lemma parseCookie_cookieHeaderOf_witness :
  WebContext.parseCookie (Some (Js.js "sid=abc; token=a=b"))
  = <[Js.js "token" := Js.js "a=b"]> (<[Js.js "sid" := Js.js "abc"]> ∅).
Proof.
  apply (parseCookie_cookieHeaderOf
           [(Js.js "sid", Js.js "abc"); (Js.js "token", Js.js "a=b")]).
  repeat constructor; simpl; try done;
    try (intros Hin; vm_compute in Hin;
         repeat (apply elem_of_cons in Hin as [Hin | Hin]; [discriminate Hin |]);
         by apply elem_of_nil in Hin).
Defined.


(** ** The theme hook *)

Section ThemeFacts.
Import Js Theme.

Lemma readTheme_setTheme (b : Browser) (t : Theme) :
  readTheme (setTheme t (Some b)) = t.
Proof.
  unfold setTheme, applyTheme, readTheme. simpl.
  destruct t; simpl.
  - by rewrite lookup_insert_eq.
  - by rewrite lookup_insert_eq.
  - by rewrite lookup_delete_eq.
Qed.

Lemma classToggle_spec (token : JsString) (force : bool) (classes : gset JsString)
    (c : JsString) :
  c ∈ classToggle token force classes <->
  (c = token /\ force = true) \/ (c <> token /\ c ∈ classes).
Proof.
  unfold classToggle. destruct force.
  - rewrite elem_of_union, elem_of_singleton.
    destruct (decide (c = token)); intuition congruence.
  - rewrite elem_of_difference, elem_of_singleton. intuition congruence.
Qed.

(** X23.  In a browser [setTheme] and [readTheme] form a round trip: after
    [setTheme t] the stored theme reads back as [t] (for [system] because the
    key is removed), the root element carries the class [dark] exactly when
    [t] resolves to dark, and neither another class nor another key of the
    storage has changed. *)
Theorem setTheme_round_trip (b : Browser) (t : Theme) :
  exists b' : Browser,
    setTheme t (Some b) = Some b' /\
    readTheme (Some b') = t /\
    (js "dark" ∈ classList b' <-> resolveTheme (Some b') t = dark) /\
    (forall c, c <> js "dark" -> c ∈ classList b' <-> c ∈ classList b) /\
    (forall k, k <> STORAGE_KEY -> localStorage b' !! k = localStorage b !! k).
Proof.
  pose proof (readTheme_setTheme b t) as Hread.
  destruct (setTheme t (Some b)) as [b' |] eqn:Hset; [| done].
  exists b'. split; [done |]. split; [done |].
  unfold setTheme, applyTheme in Hset. simpl in Hset.
  injection Hset as <-. simpl.
  split; [| split].
  - rewrite classToggle_spec.
    destruct t; simpl; [| | destruct (prefersDark b); simpl];
      intuition congruence.
  - intros c Hc. rewrite classToggle_spec. intuition congruence.
  - intros k Hk. destruct t.
    + by rewrite lookup_insert_ne.
    + by rewrite lookup_insert_ne.
    + by rewrite lookup_delete_ne.
Qed.

(** X24.  The toggle walks a cycle of length three whatever the storage
    holds, a value that is no theme counting as [system]: three clicks bring
    the stored theme back, one or two clicks do not. *)
Theorem toggle_cycle (b : Browser) :
  readTheme (click (click (click (Some b)))) = readTheme (Some b) /\
  readTheme (click (Some b)) <> readTheme (Some b) /\
  readTheme (click (click (Some b))) <> readTheme (Some b).
Proof.
  assert (Hclick : forall w : World,
             w <> None ->
             click w <> None /\ readTheme (click w) = nextTheme (readTheme w)).
  { intros [b0 |] Hw; [| done]. unfold click, toggle. split.
    - by destruct (nextTheme _).
    - apply readTheme_setTheme. }
  destruct (Hclick (Some b)) as [H1 R1]; [done |].
  destruct (Hclick _ H1) as [H2 R2].
  destruct (Hclick _ H2) as [_ R3].
  rewrite R3, R2, R1. by destruct (readTheme (Some b)).
Qed.

End ThemeFacts.

(** ** The group of a route *)

Section RouteFacts.
Import Js ChatPage.

Lemma find_elem {A : Type} (f : A -> bool) (l : list A) (x : A) :
  List.find f l = Some x -> x ∈ l /\ f x = true.
Proof.
  intros Hfind. apply List.find_some in Hfind as [Hin Hf].
  split; [by apply list_elem_of_In | done].
Qed.

Lemma find_no_elem {A : Type} (f : A -> bool) (l : list A) (x : A) :
  List.find f l = None -> x ∈ l -> f x = false.
Proof.
  intros Hfind Hin. apply (List.find_none f l Hfind). by apply list_elem_of_In.
Qed.

(** Case analysis on the three searches, in the order they are tried. *)
Ltac three_finds Hhome Hweb Hany :=
  match goal with
  | |- context [orElse (orElse ?a ?b) ?c] =>
      destruct a as [[j i] |] eqn:Hhome;
      [| destruct b as [[j i] |] eqn:Hweb;
         [| destruct c as [[j i] |] eqn:Hany]];
      simpl
  end.

(** X25.  The group that the page selects for a route belongs to the folder
    of the route and has a name that is not empty.  It is a web group if the
    folder has one, and a web home group if the folder has one. *)
Theorem routeGroupJid_choice (groupFolder : option JsString)
    (groups : list (JsString * GroupInfo)) (jid : JsString) :
  routeGroupJid groupFolder groups = Some jid ->
  jid <> [] /\
  exists info : GroupInfo,
    (jid, info) ∈ groups /\ Some (folder info) = groupFolder /\
    forall jid' info',
      (jid', info') ∈ groups -> Some (folder info') = groupFolder ->
      isWeb jid' = true ->
      isWeb jid = true /\ (is_home info' = true -> is_home info = true).
Proof.
  unfold routeGroupJid.
  destruct groupFolder as [[| g0 gf] |]; [done | | done]. cbn zeta.
  three_finds Hhome Hweb Hany.
  - destruct j as [| c j]; [done |]. intros [= <-].
    apply find_elem in Hhome as [Hin Hok]. simpl in Hok.
    apply andb_prop in Hok as [Hok Hishome]. apply andb_prop in Hok as [Hfolder Hweb].
    apply bool_decide_eq_true_1 in Hfolder.
    split; [done |]. exists i. split; [done |]. split; [by rewrite Hfolder |].
    intros jid' info' _ _ _. by split.
  - destruct j as [| c j]; [done |]. intros [= <-].
    apply find_elem in Hweb as [Hin Hok]. simpl in Hok.
    apply andb_prop in Hok as [Hfolder Hisweb].
    apply bool_decide_eq_true_1 in Hfolder.
    split; [done |]. exists i. split; [done |]. split; [by rewrite Hfolder |].
    intros jid' info' Hin' [= Hfolder'] Hweb'. split; [done |].
    intros Hhome'. apply (find_no_elem _ _ _ Hhome) in Hin'. simpl in Hin'.
    rewrite bool_decide_eq_true_2, Hweb', Hhome' in Hin' by done. done.
  - destruct j as [| c j]; [done |]. intros [= <-].
    apply find_elem in Hany as [Hin Hfolder].
    simpl in Hfolder. apply bool_decide_eq_true_1 in Hfolder.
    split; [done |]. exists i. split; [done |]. split; [by rewrite Hfolder |].
    intros jid' info' Hin' [= Hfolder'] Hweb'.
    apply (find_no_elem _ _ _ Hweb) in Hin'. simpl in Hin'.
    rewrite bool_decide_eq_true_2, Hweb' in Hin' by done. done.
  - done.
Qed.

(** X26.  For a route with a folder the page finds a group whenever the
    folder has one, group names being non-empty: no group is selected only
    if no group belongs to the folder. *)
Theorem routeGroupJid_none (groupFolder : JsString)
    (groups : list (JsString * GroupInfo)) :
  groupFolder <> [] ->
  Forall (fun e => e.1 <> []) groups ->
  routeGroupJid (Some groupFolder) groups = None ->
  forall jid info, (jid, info) ∈ groups -> folder info <> groupFolder.
Proof.
  intros Hgf Hnames. unfold routeGroupJid.
  destruct groupFolder as [| g0 gf]; [done |]. cbn zeta.
  assert (Hnamed : forall f j i, List.find f groups = Some (j, i) -> j <> []).
  { intros f j i Hfind. apply find_elem in Hfind as [Hin _].
    rewrite Forall_forall in Hnames. exact (Hnames _ Hin). }
  three_finds Hhome Hweb Hany.
  - apply Hnamed in Hhome. by destruct j.
  - apply Hnamed in Hweb. by destruct j.
  - apply Hnamed in Hany. by destruct j.
  - intros _ jid info Hin Hfolder.
    apply (find_no_elem _ _ _ Hany) in Hin. simpl in Hin.
    by rewrite bool_decide_eq_true_2 in Hin.
Qed.

End RouteFacts.

(** A folder with a telegram group, a web group and a web home group. *)
Lemma routeGroupJid_choice_witness :
  let groups :=
    [(Js.js "telegram:7", ChatPage.mkGroupInfo (Js.js "main") false);
     (Js.js "web:a", ChatPage.mkGroupInfo (Js.js "main") false);
     (Js.js "web:home", ChatPage.mkGroupInfo (Js.js "main") true);
     (Js.js "web:b", ChatPage.mkGroupInfo (Js.js "other") true)] in
  ChatPage.routeGroupJid (Some (Js.js "main")) groups = Some (Js.js "web:home") /\
  Js.js "web:home" <> [].
Proof.
  intros groups.
  assert (Hroute : ChatPage.routeGroupJid (Some (Js.js "main")) groups
                   = Some (Js.js "web:home")) by (by vm_compute).
  split; [exact Hroute |].
  exact (proj1 (routeGroupJid_choice _ _ _ Hroute)).
Defined.

(** A route to a folder that no group has. *)
Lemma routeGroupJid_none_witness :
  let groups :=
    [(Js.js "telegram:7", ChatPage.mkGroupInfo (Js.js "main") false);
     (Js.js "web:a", ChatPage.mkGroupInfo (Js.js "main") true)] in
  ChatPage.routeGroupJid (Some (Js.js "gone")) groups = None /\
  forall jid info, (jid, info) ∈ groups -> ChatPage.folder info <> Js.js "gone".
Proof.
  intros groups. split; [by vm_compute |].
  apply (routeGroupJid_none (Js.js "gone") groups).
  - done.
  - repeat constructor; done.
  - by vm_compute.
Defined.
